(** * Image annotation backend: store, handlers and their consistency model

    A shallow embedding of [backend/db.ts] (the SQLite schema and its seed
    data) and [backend/server.ts] (the five Express routes), followed by the
    properties of the data/annotation consistency model.

    Conventions of the embedding.
    - A table is the list of its rows in rowid order; [AUTOINCREMENT] is the
      [sqlite_sequence] counter kept next to it.
    - A statement is a function on [database]; a statement that can violate
      a declared constraint returns a [result].  Faults of the engine itself
      (disk full, locked file) are outside the model, so [SELECT] and
      [DELETE] always succeed; the handlers still carry their [if (err)]
      branches.
    - A new row of an [AUTOINCREMENT] table takes the counter plus one,
      which is what SQLite computes while no id exceeds the counter.
    - JavaScript numbers are [NaN] or an exact integer, which is what a
      double holds up to 2^53 in absolute value.  A string is the UTF-8
      encoding of the text, as the store keeps it; [js_length] counts its
      UTF-16 code units, as [.length] does.
    - [Date.now()], the reading of SQLite's clock for [CURRENT_TIMESTAMP]
      and [__dirname] are arguments of the upload route.
    - The file system is a finite map from path to content plus the set of
      paths the process is not allowed to remove. *)

From Stdlib Require Import ZArith String Ascii DecimalString.
From Stdlib Require DecimalPos DecimalZ.
From stdpp Require Import base decidable option list gmap strings sorting.

Open Scope Z_scope.

(** ** Values crossing the HTTP boundary *)

Inductive number :=
  | NaN
  | Num (z : Z).

Inductive result (A : Type) :=
  | Ok (a : A)
  | Err (msg : string).
Arguments Ok {A} a.
Arguments Err {A} msg.

(** [!x] on a field typed [number] that may be absent from the JSON body:
    [undefined], [NaN] and [0] are falsy.  [truthy_number] returns the
    integer of a truthy field. *)
Definition truthy_number (x : option number) : option Z :=
  match x with
  | Some (Num z) => if decide (z = 0) then None else Some z
  | Some NaN => None
  | None => None
  end.

(** [!s] on a field typed [string] that may be absent: [undefined] and the
    empty string are falsy. *)
Definition truthy_string (x : option string) : option string :=
  match x with
  | Some s => if decide (s = "") then None else Some s
  | None => None
  end.

(** [isNaN(x)] on a field typed [number]; an absent field converts to NaN. *)
Definition isNaN (x : option number) : bool :=
  match x with
  | Some (Num _) => false
  | Some NaN => true
  | None => true
  end.

(** [s.length]: the number of UTF-16 code units of the text whose UTF-8
    encoding is [s].  A continuation byte counts for nothing, the first
    byte of a sequence of one, two or three bytes for one unit, the first
    byte of a sequence of four bytes for the two units of a surrogate
    pair. *)
Definition utf16_units (c : ascii) : nat :=
  let n := nat_of_ascii c in
  if bool_decide (n < 128)%nat then 1%nat
  else if bool_decide (n < 192)%nat then 0%nat
  else if bool_decide (n < 240)%nat then 1%nat
  else 2%nat.

Fixpoint js_length (s : string) : nat :=
  match s with
  | EmptyString => 0%nat
  | String c s' => (utf16_units c + js_length s')%nat
  end.

(** Number-to-string conversion of an integer, as in a template literal. *)
Definition string_of_Z (z : Z) : string := NilZero.string_of_int (Z.to_int z).

(** *** [parseInt(s, 10)] *)

Definition is_white_space (c : ascii) : bool :=
  let n := nat_of_ascii c in
  bool_decide (n = 9 ∨ n = 10 ∨ n = 11 ∨ n = 12 ∨ n = 13 ∨ n = 32)%nat.

(** The white space of two and three bytes: U+00A0; U+1680, U+2000 to
    U+200A, U+2028, U+2029, U+202F, U+205F, U+3000 and U+FEFF. *)
Definition is_white_space2 (c1 c2 : ascii) : bool :=
  (nat_of_ascii c1 =? 194)%nat && (nat_of_ascii c2 =? 160)%nat.

Definition is_white_space3 (c1 c2 c3 : ascii) : bool :=
  let '(n1, n2, n3) := (nat_of_ascii c1, nat_of_ascii c2, nat_of_ascii c3) in
  ((n1 =? 225) && (n2 =? 154) && (n3 =? 128)
   || (n1 =? 226) && (n2 =? 128)
        && ((128 <=? n3) && (n3 <=? 138) || (n3 =? 168) || (n3 =? 169) || (n3 =? 175))
   || (n1 =? 226) && (n2 =? 129) && (n3 =? 159)
   || (n1 =? 227) && (n2 =? 128) && (n3 =? 128)
   || (n1 =? 239) && (n2 =? 187) && (n3 =? 191))%nat.

Fixpoint trim_start (s : string) : string :=
  match s with
  | String c1 s1 =>
      if is_white_space c1 then trim_start s1
      else
        match s1 with
        | String c2 s2 =>
            if is_white_space2 c1 c2 then trim_start s2
            else
              match s2 with
              | String c3 s3 =>
                  if is_white_space3 c1 c2 c3 then trim_start s3 else s
              | EmptyString => s
              end
        | EmptyString => s
        end
  | EmptyString => EmptyString
  end.

Definition digit_value (c : ascii) : option Z :=
  let n := nat_of_ascii c in
  if bool_decide (48 ≤ n ≤ 57)%nat then Some (Z.of_nat n - 48) else None.

(** Reads the longest prefix of decimal digits; [None] when there is none.
    The value is the exact integer the digits denote; the builtin returns
    the double nearest to it, which is the same number up to 2^53. *)
Fixpoint parse_digits (acc : option Z) (s : string) : option Z :=
  match s with
  | String c s' =>
      match digit_value c with
      | Some d => parse_digits (Some (10 * default 0 acc + d)) s'
      | None => acc
      end
  | EmptyString => acc
  end.

Definition parseInt (s : string) : number :=
  let t := trim_start s in
  let '(sign, t) :=
    match t with
    | String "-" t' => (-1, t')
    | String "+" t' => (1, t')
    | _ => (1, t)
    end in
  match parse_digits None t with
  | Some n => Num (sign * n)
  | None => NaN
  end.

(** ** The persistent store ([db.ts]) *)

Record image := {
  img_id : Z;
  filename : string;
  upload_time : Z;
  file_path : string }.

Record label := {
  lbl_id : Z;
  name : string }.

Record annotation := {
  ann_id : Z;
  image_id : Z;
  label_id : Z }.

#[global] Instance image_eq_dec : EqDecision image.
Proof. solve_decision. Defined.
#[global] Instance label_eq_dec : EqDecision label.
Proof. solve_decision. Defined.
#[global] Instance annotation_eq_dec : EqDecision annotation.
Proof. solve_decision. Defined.

(** The connection: the three tables with their [sqlite_sequence] counters
    and the [foreign_keys] pragma of the connection.  SQLite enforces
    [FOREIGN KEY] clauses only while the pragma is on, and a new connection
    starts with it off. *)
Record database := {
  foreign_keys : bool;
  images : list image;
  images_seq : Z;
  labels : list label;
  labels_seq : Z;
  annotations : list annotation;
  annotations_seq : Z }.

Definition with_images (rows : list image) (seq : Z) (d : database) : database :=
  {| foreign_keys := foreign_keys d;
     images := rows; images_seq := seq;
     labels := labels d; labels_seq := labels_seq d;
     annotations := annotations d; annotations_seq := annotations_seq d |}.

Definition with_labels (rows : list label) (seq : Z) (d : database) : database :=
  {| foreign_keys := foreign_keys d;
     images := images d; images_seq := images_seq d;
     labels := rows; labels_seq := seq;
     annotations := annotations d; annotations_seq := annotations_seq d |}.

Definition with_annotations (rows : list annotation) (seq : Z) (d : database) : database :=
  {| foreign_keys := foreign_keys d;
     images := images d; images_seq := images_seq d;
     labels := labels d; labels_seq := labels_seq d;
     annotations := rows; annotations_seq := seq |}.

(** [new sqlite3.Database(...)] on a missing file: no table, pragma off. *)
Definition open_database : database :=
  {| foreign_keys := false;
     images := []; images_seq := 0;
     labels := []; labels_seq := 0;
     annotations := []; annotations_seq := 0 |}.

(** [INSERT INTO labels (name) VALUES (?)].  Returns [this.lastID]. *)
Definition insert_label (nm : string) (d : database) : result (Z * database) :=
  if decide (nm ∈ name <$> labels d) then
    Err "SQLITE_CONSTRAINT: UNIQUE constraint failed: labels.name"
  else
    let i := labels_seq d + 1 in
    Ok (i, with_labels (labels d ++ [{| lbl_id := i; name := nm |}]) i d).

(** [INSERT OR IGNORE INTO labels (name) VALUES (?)]: a conflicting row is
    skipped, but the id drawn for it is spent: the counter advances. *)
Definition insert_or_ignore_label (d : database) (nm : string) : database :=
  match insert_label nm d with
  | Ok (_, d') => d'
  | Err _ => with_labels (labels d) (labels_seq d + 1) d
  end.

(** The seed statement of [db.serialize], run after the tables exist. *)
Definition seed_labels (d : database) : database :=
  foldl insert_or_ignore_label d ["cat"; "dog"; "car"].

Definition db_init : database := seed_labels open_database.

(** [SELECT id FROM labels WHERE name = ?] through [db.get]: first row. *)
Definition select_label_id (nm : string) (d : database) : option Z :=
  lbl_id <$> head (filter (λ l, name l = nm) (labels d)).

(** [SELECT file_path FROM images WHERE id = ?] through [db.get]. *)
Definition select_file_path (i : Z) (d : database) : option string :=
  file_path <$> head (filter (λ r, img_id r = i) (images d)).

Definition has_image (i : Z) (d : database) : bool :=
  bool_decide (i ∈ img_id <$> images d).

Definition has_label (i : Z) (d : database) : bool :=
  bool_decide (i ∈ lbl_id <$> labels d).

Definition has_pair (i l : Z) (d : database) : bool :=
  bool_decide ((i, l) ∈ (λ a, (image_id a, label_id a)) <$> annotations d).

(** [INSERT INTO annotations (image_id, label_id) VALUES (?, ?)], and with
    [or_ignore] the [INSERT OR IGNORE] form.  The [UNIQUE] pair is checked
    when the row is written; the foreign keys, when enforced, at the end of
    the statement.  A row that is ignored is not written, but the id drawn
    for it is spent: the counter advances.  A statement that fails is
    undone, counter included. *)
Definition insert_annotation (or_ignore : bool) (i l : Z) (d : database)
  : result database :=
  if has_pair i l d then
    if or_ignore then
      Ok (with_annotations (annotations d) (annotations_seq d + 1) d)
    else Err "SQLITE_CONSTRAINT: UNIQUE constraint failed: annotations.image_id, annotations.label_id"
  else if foreign_keys d && negb (has_image i d && has_label l d) then
    Err "SQLITE_CONSTRAINT: FOREIGN KEY constraint failed"
  else
    let k := annotations_seq d + 1 in
    Ok (with_annotations
          (annotations d ++ [{| ann_id := k; image_id := i; label_id := l |}]) k d).

(** [INSERT INTO images (filename, file_path) VALUES (?, ?)].  The
    statement passes no time: [upload_time] takes [CURRENT_TIMESTAMP], the
    reading of SQLite's own clock when the statement runs. *)
Definition insert_image (fname fpath : string) (current_timestamp : Z) (d : database)
  : result (Z * database) :=
  if decide (fname ∈ filename <$> images d) then
    Err "SQLITE_CONSTRAINT: UNIQUE constraint failed: images.filename"
  else
    let i := images_seq d + 1 in
    Ok (i, with_images
             (images d ++ [{| img_id := i; filename := fname;
                              upload_time := current_timestamp;
                              file_path := fpath |}]) i d).

(** [DELETE FROM annotations WHERE image_id = ?] *)
Definition delete_annotations_of_image (i : Z) (d : database) : result database :=
  Ok (with_annotations
        (filter (λ a, image_id a ≠ i) (annotations d)) (annotations_seq d) d).

(** [DELETE FROM images WHERE id = ?]; with the pragma on, the
    [ON DELETE CASCADE] clause removes the annotations of the image. *)
Definition delete_image (i : Z) (d : database) : result database :=
  let d' := with_images (filter (λ r, img_id r ≠ i) (images d)) (images_seq d) d in
  Ok (if foreign_keys d && has_image i d then
        with_annotations
          (filter (λ a, image_id a ≠ i) (annotations d')) (annotations_seq d') d'
      else d').

(** [DELETE FROM annotations WHERE image_id = ? AND label_id = ?] *)
Definition delete_annotation (i l : Z) (d : database) : result database :=
  Ok (with_annotations
        (filter (λ a, ¬ (image_id a = i ∧ label_id a = l)) (annotations d))
        (annotations_seq d) d).

(** ** The file system and the console *)

Record filesystem := {
  files : gmap string string;
  locked : gset string }.

(** [fs.unlink(path, cb)]: fails when the path does not exist or may not
    be removed. *)
Definition unlink (p : string) (f : filesystem) : result filesystem :=
  match files f !! p with
  | None => Err ("ENOENT: no such file or directory, unlink '" +:+ p +:+ "'")
  | Some _ =>
      if decide (p ∈ locked f) then
        Err ("EPERM: operation not permitted, unlink '" +:+ p +:+ "'")
      else Ok {| files := delete p (files f); locked := locked f |}
  end.

(** A stream write to [p], as multer's disk storage does: creates or
    replaces the file. *)
Definition write_file (p content : string) (f : filesystem) : filesystem :=
  {| files := <[p := content]> (files f); locked := locked f |}.

Record world := {
  db : database;
  disk : filesystem;
  console : list string }.

Definition with_db (d : database) (w : world) : world :=
  {| db := d; disk := disk w; console := console w |}.

(** ** Responses

    A route answers with JSON.  An error that a middleware hands to
    Express goes to its default handler, which answers with status 500 and
    an HTML page for the error, [ErrorPage], and prints the stack of the
    error, of which the model keeps the first line, to the console. *)

Record image_with_labels := {
  row_id : Z;
  row_filename : string;
  row_file_path : string;
  row_labels : option string;
  row_labelIds : option string }.

Inductive body :=
  | ErrorPage (error : string)
  | JError (error : string)
  | JSuccess (message : string)
  | JCreated (imageId : Z) (fname : string)
  | JRows (rows : list image_with_labels).

Record response := {
  status : Z;
  json : body }.

Definition respond (code : Z) (b : body) : response :=
  {| status := code; json := b |}.

(** ** The routes ([server.ts]) *)

(** *** JavaScript [String.prototype.split] with a non-empty separator *)

(** Left-to-right scan.  [skip] counts the characters of a matched
    separator still to be jumped over, [piece] is the piece being read. *)
Fixpoint split_from (sep : string) (skip : nat) (piece : string) (s : string)
  : list string :=
  match s with
  | EmptyString => [piece]
  | String c s' =>
      match skip with
      | S k => split_from sep k piece s'
      | O =>
          if String.prefix sep s then
            piece :: split_from sep (String.length sep - 1) EmptyString s'
          else split_from sep O (piece +:+ String c EmptyString) s'
      end
  end.

Definition split (sep : string) (s : string) : list string :=
  split_from sep O EmptyString s.

(** *** File upload configuration (multer) *)

Record file := {
  originalname : string;
  mimetype : string;
  content : string }.

(** [storage.filename]: [image-${Date.now()}.${fileExt}] where [fileExt] is
    [file.originalname.split('.').pop()]. *)
Definition storage_filename (now : Z) (f : file) : string :=
  let fileExt := default "undefined" (last (split "." (originalname f))) in
  "image-" +:+ string_of_Z now +:+ "." +:+ fileExt.

(** [storage.destination]: [path.join(__dirname, 'uploads')]. *)
Definition storage_destination (dirname : string) : string :=
  dirname +:+ "/uploads".

Definition fileFilter (f : file) : result unit :=
  if decide (mimetype f ∈ ["image/jpeg"; "image/png"; "image/jpg"]) then Ok ()
  else Err "Only JPG/PNG image files are allowed!".

Definition fileSize_limit : Z := 5 * 1024 * 1024.

(** *** 1. [POST /api/images]: upload an image

    [upload.single('image')] runs first: the filter, then the disk storage,
    which writes the stream to the generated path.  A rejection by multer
    reaches Express's default error handler; a file that exceeds the size
    limit is removed again. *)
Definition default_error_handler (stack : string) (error : string) (w : world)
  : world * response :=
  ({| db := db w; disk := disk w; console := console w ++ [stack] |},
   respond 500 (ErrorPage error)).

Definition post_images (dirname : string) (now current_timestamp : Z)
    (f : option file) (w : world) : world * response :=
  match f with
  | None => (w, respond 400 (JError "No image file uploaded!"))
  | Some f =>
      match fileFilter f with
      | Err msg => default_error_handler ("Error: " +:+ msg) msg w
      | Ok _ =>
          let fname := storage_filename now f in
          let filePath := storage_destination dirname +:+ "/" +:+ fname in
          if bool_decide (fileSize_limit < Z.of_nat (String.length (content f))) then
            default_error_handler "MulterError: File too large" "File too large"
              {| db := db w;
                 disk := {| files := delete filePath (files (disk w));
                            locked := locked (disk w) |};
                 console := console w |}
          else
            let w1 := {| db := db w;
                         disk := write_file filePath (content f) (disk w);
                         console := console w |} in
            match insert_image fname filePath current_timestamp (db w1) with
            | Err msg => (w1, respond 400 (JError msg))
            | Ok (lastID, d) => (with_db d w1, respond 201 (JCreated lastID fname))
            end
      end
  end.

(** *** 2. [POST /api/annotations]: add a label to an image *)
Definition post_annotations (imageId : option number) (labelName : option string)
    (d : database) : database * response :=
  match truthy_number imageId, truthy_string labelName with
  | Some iid, Some nm =>
      if bool_decide (50 < js_length nm)%nat then
        (d, respond 400 (JError "Label name cannot exceed 50 characters!"))
      else
        match select_label_id nm d with
        | Some lid =>
            match insert_annotation true iid lid d with
            | Err msg => (d, respond 400 (JError msg))
            | Ok d1 =>
                (d1, respond 200
                       (JSuccess "Label added (or already linked to the image)!"))
            end
        | None =>
            match insert_label nm d with
            | Err msg => (d, respond 400 (JError msg))
            | Ok (lastID, d1) =>
                match insert_annotation false iid lastID d1 with
                | Err msg => (d1, respond 400 (JError msg))
                | Ok d2 =>
                    (d2, respond 200
                           (JSuccess "New label created and linked to the image!"))
                end
            end
        end
  | _, _ => (d, respond 400 (JError "Image ID and label name are required!"))
  end.

(** *** 3. [GET /api/images]: all images with their labels *)

(** [GROUP_CONCAT(x, sep)] over the non-NULL values of a group. *)
Definition group_concat (sep : string) (vals : list string) : option string :=
  match vals with
  | [] => None
  | v :: vs => Some (foldl (λ acc x, acc +:+ sep +:+ x) v vs)
  end.

Definition label_id_le (a b : annotation) : Prop := label_id a ≤ label_id b.

#[global] Instance label_id_le_dec : RelDecision label_id_le.
Proof. intros a b. unfold label_id_le. apply _. Defined.

(** The annotations of image [i] as the join reads them: through the index
    of [UNIQUE(image_id, label_id)], that is in the order of their
    [label_id]. *)
Definition annotations_of (i : Z) (d : database) : list annotation :=
  merge_sort label_id_le (filter (λ a, image_id a = i) (annotations d)).

(** The label rows joined to image [r]: for each annotation of the image,
    the labels it references.  An annotation without label contributes the
    all-NULL row of the left join, which the aggregates skip. *)
Definition joined_labels (r : image) (d : database) : list label :=
  a ← annotations_of (img_id r) d;
  filter (λ l, lbl_id l = label_id a) (labels d).

Definition images_with_labels (d : database) : list image_with_labels :=
  (λ r, let ls := joined_labels r d in
        {| row_id := img_id r;
           row_filename := filename r;
           row_file_path := file_path r;
           row_labels := group_concat ", " (name <$> ls);
           row_labelIds := group_concat ", " (string_of_Z ∘ lbl_id <$> ls) |})
    <$> images d.

Definition get_images (d : database) : database * response :=
  (d, respond 200 (JRows (images_with_labels d))).

(** The consumer of the listing ([renderImageGrid] of the front end):
    [img.labels ? img.labels.split(', ') : []]. *)
Definition split_field (x : option string) : list string :=
  match truthy_string x with
  | Some s => split ", " s
  | None => []
  end.

(** *** 4. [DELETE /api/images/:id]: delete an image, its annotations and
    its file *)
Definition delete_images_id (id : string) (w : world) : world * response :=
  match parseInt id with
  | NaN => (w, respond 400 (JError "Invalid image ID (must be a number)!"))
  | Num imageId =>
      match select_file_path imageId (db w) with
      | None => (w, respond 404 (JError "Image not found in the database!"))
      | Some path =>
          (* Step 2: a failed removal is logged and nothing else *)
          let w1 :=
            match unlink path (disk w) with
            | Ok f => {| db := db w; disk := f; console := console w |}
            | Err msg =>
                {| db := db w; disk := disk w;
                   console := console w ++ ["File deletion failed: " +:+ msg] |}
            end in
          (* Step 3 *)
          match delete_annotations_of_image imageId (db w1) with
          | Err msg => (w1, respond 400 (JError msg))
          | Ok d2 =>
              (* Step 4 *)
              match delete_image imageId d2 with
              | Err msg => (with_db d2 w1, respond 400 (JError msg))
              | Ok d3 =>
                  (with_db d3 w1,
                   respond 200
                     (JSuccess "Image deleted successfully (including file and annotations)!"))
              end
          end
      end
  end.

(** *** 5. [DELETE /api/annotations]: remove a label from an image *)
Definition delete_annotations (imageId labelId : option number) (d : database)
  : database * response :=
  match truthy_number imageId, truthy_number labelId with
  | Some iid, Some lid =>
      if isNaN imageId || isNaN labelId then
        (d, respond 400 (JError "Valid Image ID and Label ID (numbers) are required!"))
      else
        match delete_annotation iid lid d with
        | Err msg => (d, respond 400 (JError msg))
        | Ok d1 =>
            (d1, respond 200 (JSuccess "Label removed from the image successfully!"))
        end
  | _, _ =>
      (d, respond 400 (JError "Valid Image ID and Label ID (numbers) are required!"))
  end.

(** ** Requests and reachable states *)

Inductive request :=
  | PostImages (dirname : string) (now current_timestamp : Z) (f : option file)
  | PostAnnotations (imageId : option number) (labelName : option string)
  | GetImages
  | DeleteImagesId (id : string)
  | DeleteAnnotations (imageId labelId : option number).

Definition on_db (h : database → database * response) (w : world) : world * response :=
  let '(d, r) := h (db w) in (with_db d w, r).

Definition handle (q : request) (w : world) : world * response :=
  match q with
  | PostImages dirname now current_timestamp f =>
      post_images dirname now current_timestamp f w
  | PostAnnotations imageId labelName => on_db (post_annotations imageId labelName) w
  | GetImages => on_db get_images w
  | DeleteImagesId id => delete_images_id id w
  | DeleteAnnotations imageId labelId => on_db (delete_annotations imageId labelId) w
  end.

(** The server starts on a fresh database file, with any content on disk. *)
Definition initial_world (f : filesystem) : world :=
  {| db := db_init; disk := f; console := [] |}.

Inductive reachable : world → Prop :=
  | reachable_init f : reachable (initial_world f)
  | reachable_step q w : reachable w → reachable (handle q w).1.

(** Requests served one after the other. *)
Definition serve (qs : list request) (w : world) : world :=
  foldl (λ w q, (handle q w).1) w qs.

(** ** Requests in flight

    A route does not run as one unit: it queues a statement, and the
    callback of that statement queues the next one.  A request in flight is
    the statement it is waiting for; a turn runs that statement on the
    store and the callback behind it.  Statements of other requests may
    run between two turns. *)

Inductive attach_task :=
  | Lookup (iid : Z) (nm : string)
  | LinkExisting (iid lid : Z)
  | CreateLabel (iid : Z) (nm : string)
  | LinkNew (iid lid : Z)
  | Responded (r : response).

(** The synchronous part of the handler: the guards, then [db.get]. *)
Definition attach_begin (imageId : option number) (labelName : option string)
  : attach_task :=
  match truthy_number imageId, truthy_string labelName with
  | Some iid, Some nm =>
      if bool_decide (50 < js_length nm)%nat then
        Responded (respond 400 (JError "Label name cannot exceed 50 characters!"))
      else Lookup iid nm
  | _, _ => Responded (respond 400 (JError "Image ID and label name are required!"))
  end.

Definition attach_step (t : attach_task) (d : database) : attach_task * database :=
  match t with
  | Lookup iid nm =>
      match select_label_id nm d with
      | Some lid => (LinkExisting iid lid, d)
      | None => (CreateLabel iid nm, d)
      end
  | LinkExisting iid lid =>
      match insert_annotation true iid lid d with
      | Err msg => (Responded (respond 400 (JError msg)), d)
      | Ok d1 =>
          (Responded
             (respond 200 (JSuccess "Label added (or already linked to the image)!")),
           d1)
      end
  | CreateLabel iid nm =>
      match insert_label nm d with
      | Err msg => (Responded (respond 400 (JError msg)), d)
      | Ok (lastID, d1) => (LinkNew iid lastID, d1)
      end
  | LinkNew iid lid =>
      match insert_annotation false iid lid d with
      | Err msg => (Responded (respond 400 (JError msg)), d)
      | Ok d1 =>
          (Responded
             (respond 200 (JSuccess "New label created and linked to the image!")),
           d1)
      end
  | Responded r => (Responded r, d)
  end.

Fixpoint attach_run (turns : nat) (t : attach_task) (d : database)
  : attach_task * database :=
  match turns with
  | O => (t, d)
  | S k => let '(t', d') := attach_step t d in attach_run k t' d'
  end.

(** Two requests in flight and the order in which their turns come. *)
Inductive turn := First | Second.


(** * Vocabulary of the properties *)

(** The columns under [UNIQUE(image_id, label_id)]. *)
Definition pair_of (a : annotation) : Z * Z := (image_id a, label_id a).

(** What the schema of [db.ts] and the guards of the routes maintain:
    the pragma stays off, primary keys are unique and bounded by their
    counters, the [UNIQUE] columns hold no duplicate, label names are
    non-empty and at most 50 UTF-16 code units long, and every annotation
    references a stored label. *)
Record store_inv (d : database) : Prop := {
  inv_pragma : foreign_keys d = false;
  inv_image_ids : NoDup (img_id <$> images d);
  inv_image_seq : ∀ r, r ∈ images d → img_id r ≤ images_seq d;
  inv_filenames : NoDup (filename <$> images d);
  inv_label_ids : NoDup (lbl_id <$> labels d);
  inv_label_seq : ∀ l, l ∈ labels d → lbl_id l ≤ labels_seq d;
  inv_label_names : NoDup (name <$> labels d);
  inv_label_name_ok :
    ∀ l, l ∈ labels d → name l ≠ "" ∧ (js_length (name l) ≤ 50)%nat;
  inv_pairs : NoDup (pair_of <$> annotations d);
  inv_pair_label : ∀ a, a ∈ annotations d → label_id a ∈ lbl_id <$> labels d }.

(** The annotation rows of the pair (image [i], label [l]). *)
Definition is_pair (i l : Z) (a : annotation) : Prop :=
  image_id a = i ∧ label_id a = l.

#[global] Instance is_pair_dec i l a : Decision (is_pair i l a).
Proof. unfold is_pair. apply _. Defined.

(** The two answers of the input guards of [POST /api/annotations]. *)
Definition validation_error (r : response) : Prop :=
  r = respond 400 (JError "Image ID and label name are required!") ∨
  r = respond 400 (JError "Label name cannot exceed 50 characters!").

(** What the spec asks of [imageId]. *)
Definition positive_integer (x : option number) : Prop :=
  ∃ z, x = Some (Num z) ∧ 0 < z.

(** What the route rejects: an id that is absent, NaN or zero; a name that
    is absent or empty; a name of more than 50 UTF-16 code units. *)
Definition falsy_id (x : option number) : Prop :=
  x = None ∨ x = Some NaN ∨ x = Some (Num 0).

Definition falsy_name (x : option string) : Prop :=
  x = None ∨ x = Some "".

Definition too_long (x : option string) : Prop :=
  ∃ s, x = Some s ∧ (50 < js_length s)%nat.

(** The answers of [POST /api/annotations] past its guards. *)
Definition created_response : response :=
  respond 200 (JSuccess "New label created and linked to the image!").

Definition linked_response : response :=
  respond 200 (JSuccess "Label added (or already linked to the image)!").










#[global] Instance turn_eq_dec : EqDecision turn.
Proof. solve_decision. Defined.


(** What the [FOREIGN KEY] clauses of the annotations table declare. *)
Definition referential_integrity (d : database) : Prop :=
  ∀ a, a ∈ annotations d →
    image_id a ∈ img_id <$> images d ∧ label_id a ∈ lbl_id <$> labels d.

(** Occurrence of the delimiter [", "] in a string. *)
Fixpoint has_delimiter (s : string) : bool :=
  match s with
  | EmptyString => false
  | String _ s' => String.prefix ", " s || has_delimiter s'
  end.

(** [GROUP_CONCAT] builds the string from the left; the pieces read from
    the left are the same string. *)
Definition join_tail (vs : list string) : string :=
  foldr (λ x acc, ", " +:+ x +:+ acc) "" vs.

(** Strings without comma, such as printed integers, hold no delimiter. *)
Fixpoint comma_free (s : string) : bool :=
  match s with
  | EmptyString => true
  | String c s' => negb (bool_decide (c = ","%char)) && comma_free s'
  end.

(** ** The front end's use of the listing ([renderImageGrid])

    For each row the page splits both fields and renders one tag per label
    name, with a delete button that carries the image id and
    [labelIds[index]]; an index past the end of [labelIds] reads
    [undefined]. *)
Definition labelTags (img : image_with_labels) : list (string * Z * option string) :=
  let labels := split_field (row_labels img) in
  let labelIds := split_field (row_labelIds img) in
  imap (λ index label, (label, row_id img, labelIds !! index)) labels.

(** ** Further vocabulary *)

(** Row ids start at 1: the counters are never negative and no id is
    below 1. *)
Record ids_positive (d : database) : Prop := {
  pos_images_seq : 0 ≤ images_seq d;
  pos_labels_seq : 0 ≤ labels_seq d;
  pos_annotations_seq : 0 ≤ annotations_seq d;
  pos_image_ids : ∀ r, r ∈ images d → 0 < img_id r;
  pos_label_ids : ∀ l, l ∈ labels d → 0 < lbl_id l;
  pos_annotation_ids : ∀ a, a ∈ annotations d → 0 < ann_id a }.

(** The number a string of decimal digits denotes, read from the left
    with [acc] the value of the digits already read. *)
Fixpoint uint_value (acc : Z) (u : Decimal.uint) : Z :=
  match u with
  | Decimal.Nil => acc
  | Decimal.D0 u' => uint_value (10 * acc + 0) u'
  | Decimal.D1 u' => uint_value (10 * acc + 1) u'
  | Decimal.D2 u' => uint_value (10 * acc + 2) u'
  | Decimal.D3 u' => uint_value (10 * acc + 3) u'
  | Decimal.D4 u' => uint_value (10 * acc + 4) u'
  | Decimal.D5 u' => uint_value (10 * acc + 5) u'
  | Decimal.D6 u' => uint_value (10 * acc + 6) u'
  | Decimal.D7 u' => uint_value (10 * acc + 7) u'
  | Decimal.D8 u' => uint_value (10 * acc + 8) u'
  | Decimal.D9 u' => uint_value (10 * acc + 9) u'
  end.

(** A rest of input at which [parseInt] stops reading digits. *)
Definition stops_digits (s : string) : Prop :=
  match s with
  | EmptyString => True
  | String c _ => digit_value c = None
  end.

(** Strings without a dot. *)
Fixpoint dot_free (s : string) : bool :=
  match s with
  | EmptyString => true
  | String c s' => negb (bool_decide (c = "."%char)) && dot_free s'
  end.

(** ** Sample worlds *)

Definition empty_disk : filesystem := {| files := ∅; locked := ∅ |}.

Definition cat_jpg : file :=
  {| originalname := "cat.jpg"; mimetype := "image/jpeg"; content := "cat-bytes" |}.

Definition dog_png : file :=
  {| originalname := "dog.png"; mimetype := "image/png"; content := "dog-bytes" |}.

(** Two uploads, then "cat" and "dog" on the first image. *)
Definition gallery : world :=
  serve [PostImages "/srv/backend" 1700000000000 1700000000 (Some cat_jpg);
         PostImages "/srv/backend" 1700000000500 1700000001 (Some dog_png);
         PostAnnotations (Some (Num 1)) (Some "cat");
         PostAnnotations (Some (Num 1)) (Some "dog")]
    (initial_world empty_disk).

(** The same store, with the file of the first image protected from
    removal. *)
Definition gallery_locked : world :=
  {| db := db gallery;
     disk := {| files := files (disk gallery);
                locked := {["/srv/backend/uploads/image-1700000000000.jpg"]} |};
     console := [] |}.

(** The rows of the two images of [gallery]. *)
Definition gallery_cat_row : image :=
  {| img_id := 1; filename := "image-1700000000000.jpg";
     upload_time := 1700000000;
     file_path := "/srv/backend/uploads/image-1700000000000.jpg" |}.

Definition gallery_dog_row : image :=
  {| img_id := 2; filename := "image-1700000000500.png";
     upload_time := 1700000001;
     file_path := "/srv/backend/uploads/image-1700000000500.png" |}.

(** The row of [dog_png] uploaded again after its first row was deleted. *)
Definition gallery_new_dog_row : image :=
  {| img_id := 3; filename := "image-1700000000900.png";
     upload_time := 1700000002;
     file_path := "/srv/backend/uploads/image-1700000000900.png" |}.

Definition bird_v2_png : file :=
  {| originalname := "bird.v2.png"; mimetype := "image/png"; content := "bird-bytes" |}.

(** * Properties *)

(** ** Lookups *)

(** A column declared [UNIQUE] determines its row. *)
Lemma unique_column_row {A B} (f : A → B) (l : list A) (x y : A) :
  NoDup (f <$> l) → x ∈ l → y ∈ l → f x = f y → x = y.
Proof.
  induction l as [|z l IH]; intros Hnd Hx Hy Hf; [by apply elem_of_nil in Hx|].
  rewrite fmap_cons in Hnd. apply NoDup_cons in Hnd as [Hz Hnd].
  apply elem_of_cons in Hx as [->|Hx]; apply elem_of_cons in Hy as [->|Hy];
    [done | | | by apply IH].
  - destruct Hz. rewrite Hf. by apply list_elem_of_fmap_2.
  - destruct Hz. rewrite <- Hf. by apply list_elem_of_fmap_2.
Qed.

Lemma select_file_path_None i d :
  select_file_path i d = None ↔ i ∉ img_id <$> images d.
Proof.
  unfold select_file_path. rewrite fmap_None, head_None. split.
  - intros Hnil (r & -> & Hr)%list_elem_of_fmap.
    exact (filter_nil_not_elem_of _ _ _ Hnil eq_refl Hr).
  - intros Hnot. apply elem_of_nil_inv. intros r [Hid Hr]%list_elem_of_filter.
    apply Hnot. subst i. by apply list_elem_of_fmap_2.
Qed.

Lemma select_file_path_Some i d :
  i ∈ img_id <$> images d → ∃ p, select_file_path i d = Some p.
Proof.
  intros Hin. destruct (select_file_path i d) eqn:E; [by eexists|].
  by apply select_file_path_None in E.
Qed.

Lemma select_label_id_None nm d :
  select_label_id nm d = None ↔ nm ∉ name <$> labels d.
Proof.
  unfold select_label_id. rewrite fmap_None, head_None. split.
  - intros Hnil (l & -> & Hl)%list_elem_of_fmap.
    exact (filter_nil_not_elem_of _ _ _ Hnil eq_refl Hl).
  - intros Hnot. apply elem_of_nil_inv. intros l [Hnm Hl]%list_elem_of_filter.
    apply Hnot. subst nm. by apply list_elem_of_fmap_2.
Qed.

Lemma select_label_id_elem nm d i :
  select_label_id nm d = Some i → {| lbl_id := i; name := nm |} ∈ labels d.
Proof.
  unfold select_label_id. intros (l & Hhd & ->)%fmap_Some.
  apply head_Some_elem_of, list_elem_of_filter in Hhd as [<- Hl].
  by destruct l.
Qed.

(** With unique names the lookup returns the one row bearing the name. *)
Lemma select_label_id_unique nm d i :
  NoDup (name <$> labels d) →
  {| lbl_id := i; name := nm |} ∈ labels d →
  select_label_id nm d = Some i.
Proof.
  intros Hnd Hin. destruct (select_label_id nm d) as [j|] eqn:E.
  - apply select_label_id_elem in E. f_equal.
    assert ({| lbl_id := j; name := nm |} = {| lbl_id := i; name := nm |}) as Heq.
    { by eapply (unique_column_row name). }
    congruence.
  - apply select_label_id_None in E. destruct E.
    by apply (list_elem_of_fmap_2 name) in Hin.
Qed.

(** ** The constraints of the schema as a store invariant *)

Lemma NoDup_fmap_filter {A B} (f : A → B) (P : A → Prop)
    `{!∀ x, Decision (P x)} (l : list A) :
  NoDup (f <$> l) → NoDup (f <$> filter P l).
Proof.
  intros Hnd. eapply sublist_NoDup; [exact Hnd|].
  apply fmap_sublist, sublist_filter.
Qed.

Lemma NoDup_fmap_snoc {A B} (f : A → B) (l : list A) (x : A) :
  NoDup (f <$> l) → f x ∉ f <$> l → NoDup (f <$> (l ++ [x])).
Proof.
  intros Hnd Hx. rewrite fmap_app. apply NoDup_app. split_and!; [done| |].
  - intros y Hy ->%list_elem_of_singleton. done.
  - apply NoDup_singleton.
Qed.

Lemma has_pair_spec i l d : has_pair i l d = true ↔ (i, l) ∈ pair_of <$> annotations d.
Proof. unfold has_pair. by rewrite bool_decide_eq_true. Qed.

Lemma store_inv_init : store_inv db_init.
Proof.
  split; simpl; try done.
  - apply NoDup_nil_2.
  - intros r Hr. by apply elem_of_nil in Hr.
  - apply NoDup_nil_2.
  - by apply (bool_decide_unpack _).
  - intros l Hl. repeat (apply elem_of_cons in Hl as [->|Hl]); simpl; try lia.
    by apply elem_of_nil in Hl.
  - by apply (bool_decide_unpack _).
  - intros l Hl. repeat (apply elem_of_cons in Hl as [->|Hl]); simpl;
      try (split; [done|lia]).
    by apply elem_of_nil in Hl.
  - apply NoDup_nil_2.
  - intros a Ha. by apply elem_of_nil in Ha.
Qed.

Lemma insert_label_inv nm d i d' :
  store_inv d → nm ≠ "" → (js_length nm ≤ 50)%nat →
  insert_label nm d = Ok (i, d') → store_inv d'.
Proof.
  intros [] Hne Hlen. unfold insert_label. case_decide as Hin; [done|].
  intros [= <- <-]. split; simpl; try done.
  - apply NoDup_fmap_snoc; [done|]. simpl.
    intros (l & Hl & Hin')%list_elem_of_fmap. apply inv_label_seq0 in Hin'. lia.
  - intros l [Hl| ->%list_elem_of_singleton]%elem_of_app; simpl; [|lia].
    apply inv_label_seq0 in Hl. lia.
  - by apply NoDup_fmap_snoc.
  - intros l [Hl| ->%list_elem_of_singleton]%elem_of_app; simpl; auto.
  - intros a Ha. rewrite fmap_app. apply elem_of_app. left. auto.
Qed.

Lemma insert_annotation_inv b i l d d' :
  store_inv d → l ∈ lbl_id <$> labels d →
  insert_annotation b i l d = Ok d' → store_inv d'.
Proof.
  intros Hinv Hl. unfold insert_annotation.
  destruct (has_pair i l d) eqn:Hp.
  { destruct b; [|done]. intros [= <-]. by destruct Hinv. }
  destruct Hinv. rewrite inv_pragma0. simpl. intros [= <-].
  split; simpl; try done.
  - apply NoDup_fmap_snoc; [done|]. simpl. unfold pair_of at 1. simpl.
    intros Hin. apply has_pair_spec in Hin. congruence.
  - intros a [Ha| ->%list_elem_of_singleton]%elem_of_app; simpl; auto.
Qed.

Lemma insert_image_inv fname fpath now d i d' :
  store_inv d → insert_image fname fpath now d = Ok (i, d') → store_inv d'.
Proof.
  intros []. unfold insert_image. case_decide as Hin; [done|].
  intros [= <- <-]. split; simpl; try done.
  - apply NoDup_fmap_snoc; [done|]. simpl.
    intros (r & Hr & Hin')%list_elem_of_fmap. apply inv_image_seq0 in Hin'. lia.
  - intros r [Hr| ->%list_elem_of_singleton]%elem_of_app; simpl; [|lia].
    apply inv_image_seq0 in Hr. lia.
  - by apply NoDup_fmap_snoc.
Qed.

Lemma delete_annotations_of_image_inv i d d' :
  store_inv d → delete_annotations_of_image i d = Ok d' → store_inv d'.
Proof.
  intros [] [= <-]. split; simpl; try done.
  - by apply NoDup_fmap_filter.
  - intros a [_ Ha]%list_elem_of_filter. auto.
Qed.

Lemma delete_annotation_inv i l d d' :
  store_inv d → delete_annotation i l d = Ok d' → store_inv d'.
Proof.
  intros [] [= <-]. split; simpl; try done.
  - by apply NoDup_fmap_filter.
  - intros a [_ Ha]%list_elem_of_filter. auto.
Qed.

Lemma delete_image_inv i d d' :
  store_inv d → delete_image i d = Ok d' → store_inv d'.
Proof.
  intros []. unfold delete_image. rewrite inv_pragma0. simpl. intros [= <-].
  split; simpl; try done.
  - by apply NoDup_fmap_filter.
  - intros r [_ Hr]%list_elem_of_filter. auto.
  - by apply NoDup_fmap_filter.
Qed.

Lemma truthy_number_Some x z :
  truthy_number x = Some z ↔ x = Some (Num z) ∧ z ≠ 0.
Proof.
  unfold truthy_number. destruct x as [[|y]|]; [by split; [|intros []]| |by split; [|intros []]].
  case_decide as Hy; split.
  - done.
  - intros [[= ->] ?]. done.
  - intros [= ->]. done.
  - intros [[= ->] ?]. done.
Qed.

Lemma truthy_string_Some x s :
  truthy_string x = Some s ↔ x = Some s ∧ s ≠ "".
Proof.
  unfold truthy_string. destruct x as [y|]; [|by split; [|intros []]].
  case_decide as Hy; split.
  - done.
  - intros [[= ->] ?]. done.
  - intros [= ->]. done.
  - intros [[= ->] ?]. done.
Qed.

Lemma insert_label_Ok nm d i d' :
  insert_label nm d = Ok (i, d') ↔
  (nm ∉ name <$> labels d) ∧ i = labels_seq d + 1 ∧
  d' = with_labels (labels d ++ [{| lbl_id := i; name := nm |}]) i d.
Proof.
  unfold insert_label. case_decide as Hin; split.
  - done.
  - by intros [? _].
  - intros [= <- <-]. auto.
  - intros (_ & -> & ->). done.
Qed.

Lemma insert_label_Err nm d msg :
  insert_label nm d = Err msg ↔
  (nm ∈ name <$> labels d) ∧
  msg = "SQLITE_CONSTRAINT: UNIQUE constraint failed: labels.name".
Proof.
  unfold insert_label. case_decide as Hin; split.
  - intros [= <-]. auto.
  - intros [_ ->]. done.
  - done.
  - by intros [? _].
Qed.

(** ** Every route preserves the store invariant *)

Lemma post_annotations_inv imageId labelName d :
  store_inv d → store_inv (post_annotations imageId labelName d).1.
Proof.
  intros Hinv. unfold post_annotations.
  destruct (truthy_number imageId) as [iid|]; [|done].
  destruct (truthy_string labelName) as [nm|] eqn:Hnm; [|done].
  apply truthy_string_Some in Hnm as [_ Hne].
  case_bool_decide as Hlen; [done|].
  destruct (select_label_id nm d) as [lid|] eqn:Hsel.
  - destruct (insert_annotation true iid lid d) as [d1|] eqn:Hins; [|done].
    eapply insert_annotation_inv; [done| |done].
    apply select_label_id_elem in Hsel.
    by apply (list_elem_of_fmap_2 lbl_id) in Hsel.
  - destruct (insert_label nm d) as [[lastID d1]|] eqn:Hlbl; [|done].
    assert (store_inv d1) as Hinv1.
    { eapply insert_label_inv; [done|done|lia|done]. }
    destruct (insert_annotation false iid lastID d1) as [d2|] eqn:Hins; [|done].
    eapply insert_annotation_inv; [done| |done].
    apply insert_label_Ok in Hlbl as (_ & -> & ->). simpl.
    rewrite fmap_app. apply elem_of_app. right. by apply list_elem_of_singleton.
Qed.

Lemma delete_annotations_inv imageId labelId d :
  store_inv d → store_inv (delete_annotations imageId labelId d).1.
Proof.
  intros Hinv. unfold delete_annotations.
  destruct (truthy_number imageId) as [iid|]; [|done].
  destruct (truthy_number labelId) as [lid|]; [|done].
  destruct (isNaN imageId || isNaN labelId); [done|].
  by eapply delete_annotation_inv.
Qed.

Lemma delete_images_id_inv id w :
  store_inv (db w) → store_inv (db (delete_images_id id w).1).
Proof.
  intros Hinv. unfold delete_images_id.
  destruct (parseInt id) as [|imageId]; [done|].
  destruct (select_file_path imageId (db w)) as [p|]; [|done].
  set (w1 := match unlink p (disk w) with Ok _ => _ | Err _ => _ end).
  assert (db w1 = db w) as Hdb by (unfold w1; by destruct (unlink p (disk w))).
  rewrite Hdb.
  destruct (delete_annotations_of_image imageId (db w)) as [d2|] eqn:H2; [|done].
  apply delete_annotations_of_image_inv in H2; [|done].
  destruct (delete_image imageId d2) as [d3|] eqn:H3; [|done].
  by apply delete_image_inv in H3.
Qed.

Lemma post_images_inv dirname now ts f w :
  store_inv (db w) → store_inv (db (post_images dirname now ts f w).1).
Proof.
  intros Hinv. unfold post_images. destruct f as [f|]; [|done].
  destruct (fileFilter f); [|done]. case_bool_decide; [done|]. simpl.
  destruct (insert_image _ _ _ _) as [[lastID d]|] eqn:Hins; [|done].
  simpl. by eapply insert_image_inv.
Qed.

Lemma handle_inv q w : store_inv (db w) → store_inv (db (handle q w).1).
Proof.
  intros Hinv. destruct q; simpl.
  - by apply post_images_inv.
  - unfold on_db.
    pose proof (post_annotations_inv imageId labelName (db w) Hinv) as H.
    by destruct (post_annotations imageId labelName (db w)).
  - done.
  - by apply delete_images_id_inv.
  - unfold on_db.
    pose proof (delete_annotations_inv imageId labelId (db w) Hinv) as H.
    by destruct (delete_annotations imageId labelId (db w)).
Qed.

Lemma reachable_inv w : reachable w → store_inv (db w).
Proof.
  induction 1 as [f|q w _ IH]; [apply store_inv_init | by apply handle_inv].
Qed.

(** ** Deletion coordinator and label removal *)

Lemma with_annotations_same d :
  with_annotations (annotations d) (annotations_seq d) d = d.
Proof. by destruct d. Qed.

Lemma filter_all {A} (P : A → Prop) `{!∀ x, Decision (P x)} (l : list A) :
  (∀ x, x ∈ l → P x) → filter P l = l.
Proof.
  induction l as [|x l IH]; intros Hall; [done|].
  rewrite filter_cons_True by (apply Hall; left).
  f_equal. apply IH. intros y Hy. apply Hall. by right.
Qed.

(** C10. Neither [DELETE /api/annotations] nor [DELETE /api/images/:id]
    touches the labels table: its rows and its id counter are the same
    before and after every call, whatever the arguments and the outcome,
    so a label left without annotation stays.  Removing a label from an
    image leaves the images table unchanged as well. *)
Theorem deletions_leave_labels :
  (∀ imageId labelId d,
     let d' := (delete_annotations imageId labelId d).1 in
     labels d' = labels d ∧ labels_seq d' = labels_seq d ∧
     images d' = images d ∧ images_seq d' = images_seq d) ∧
  (∀ id w,
     let w' := (delete_images_id id w).1 in
     labels (db w') = labels (db w) ∧ labels_seq (db w') = labels_seq (db w)).
Proof.
  split.
  - intros imageId labelId d. unfold delete_annotations.
    destruct (truthy_number imageId); [|done].
    destruct (truthy_number labelId); [|done].
    by destruct (isNaN imageId || isNaN labelId).
  - intros id w. unfold delete_images_id.
    destruct (parseInt id) as [|n]; [done|].
    destruct (select_file_path n (db w)) as [p|]; [|done].
    destruct (unlink p (disk w)); simpl; unfold delete_image; simpl;
      by destruct (foreign_keys (db w) && _).
Qed.

(** C8. [DELETE /api/images/:id] with a numeric id that no row of the
    images table carries answers 404 and returns the world as it was:
    store, disk and console are unchanged. *)
Theorem delete_unknown_image_not_found id n w :
  parseInt id = Num n →
  n ∉ img_id <$> images (db w) →
  delete_images_id id w =
    (w, respond 404 (JError "Image not found in the database!")).
Proof.
  intros Hid Hn. unfold delete_images_id. rewrite Hid.
  apply select_file_path_None in Hn. by rewrite Hn.
Qed.

(** C9. [DELETE /api/annotations] with two ids that pass the route's guard
    (numbers other than zero) answers 200: the rows matching both ids are
    gone afterwards, a store without such a row is returned unchanged, and
    a second call with the same ids answers 200 again and changes nothing. *)
Theorem detach_always_succeeds iid lid d :
  iid ≠ 0 → lid ≠ 0 →
  let ok := respond 200 (JSuccess "Label removed from the image successfully!") in
  let d1 := with_annotations
              (filter (λ a, ¬ (image_id a = iid ∧ label_id a = lid)) (annotations d))
              (annotations_seq d) d in
  delete_annotations (Some (Num iid)) (Some (Num lid)) d = (d1, ok) ∧
  ((iid, lid) ∉ pair_of <$> annotations d → d1 = d) ∧
  ((iid, lid) ∉ pair_of <$> annotations d1) ∧
  (∀ a, a ∈ annotations d → pair_of a ≠ (iid, lid) → a ∈ annotations d1) ∧
  delete_annotations (Some (Num iid)) (Some (Num lid)) d1 = (d1, ok).
Proof.
  intros Hi Hl ok d1.
  assert (∀ d0, delete_annotations (Some (Num iid)) (Some (Num lid)) d0 =
            (with_annotations
               (filter (λ a, ¬ (image_id a = iid ∧ label_id a = lid)) (annotations d0))
               (annotations_seq d0) d0, ok)) as Hrun.
  { intros d0. unfold delete_annotations, truthy_number.
    by rewrite !decide_False by done. }
  split_and!.
  - apply Hrun.
  - intros Hnot. unfold d1. rewrite filter_all; [apply with_annotations_same|].
    intros a Ha [<- <-]. apply Hnot. by apply (list_elem_of_fmap_2 pair_of) in Ha.
  - intros (a & [= Hia Hla] & [Hne _]%list_elem_of_filter)%list_elem_of_fmap.
    by destruct Hne.
  - intros a Ha Hne. apply list_elem_of_filter. split; [|done].
    intros [<- <-]. by destruct Hne.
  - rewrite Hrun. f_equal. unfold d1. simpl. unfold with_annotations. simpl.
    f_equal. apply filter_all. by intros a [? _]%list_elem_of_filter.
Qed.

(** Steps 3 and 4 of the deletion, run one after the other. *)
Lemma delete_steps n d :
  ∃ d3,
    delete_image n
      (with_annotations (filter (λ a, image_id a ≠ n) (annotations d))
         (annotations_seq d) d) = Ok d3 ∧
    annotations d3 = filter (λ a, image_id a ≠ n) (annotations d) ∧
    images d3 = filter (λ r, img_id r ≠ n) (images d).
Proof.
  eexists. split; [reflexivity|]. simpl.
  destruct (foreign_keys d && _); simpl; [|done].
  split; [|done]. by apply list_filter_filter_l.
Qed.

(** C2. [DELETE /api/images/:id] for the id of a stored image answers 200
    after removing every annotation of the image and the image row,
    whether or not the file could be removed: when [fs.unlink] fails the
    disk is left as it was, one line goes to the console, and the store
    and the response are the same as when it succeeds. *)
Theorem delete_image_best_effort id n w :
  parseInt id = Num n →
  n ∈ img_id <$> images (db w) →
  ∃ w' p,
    delete_images_id id w =
      (w', respond 200
             (JSuccess "Image deleted successfully (including file and annotations)!")) ∧
    annotations (db w') = filter (λ a, image_id a ≠ n) (annotations (db w)) ∧
    images (db w') = filter (λ r, img_id r ≠ n) (images (db w)) ∧
    (n ∉ img_id <$> images (db w')) ∧
    select_file_path n (db w) = Some p ∧
    match unlink p (disk w) with
    | Ok f => disk w' = f ∧ console w' = console w
    | Err msg =>
        disk w' = disk w ∧
        console w' = console w ++ ["File deletion failed: " +:+ msg]
    end.
Proof.
  intros Hid Hn. apply select_file_path_Some in Hn as [p Hp].
  destruct (delete_steps n (db w)) as (d3 & Hrun & Hann & Himg).
  set (w1 := match unlink p (disk w) with
             | Ok f => {| db := db w; disk := f; console := console w |}
             | Err msg =>
                 {| db := db w; disk := disk w;
                    console := console w ++ ["File deletion failed: " +:+ msg] |}
             end).
  assert (db w1 = db w) as Hdb by (unfold w1; by destruct (unlink p (disk w))).
  exists (with_db d3 w1), p. split_and!.
  - unfold delete_images_id. rewrite Hid, Hp. fold w1.
    unfold delete_annotations_of_image. by rewrite Hdb, Hrun.
  - done.
  - done.
  - simpl. rewrite Himg.
    intros (r & -> & [Hne _]%list_elem_of_filter)%list_elem_of_fmap. done.
  - done.
  - unfold w1. by destruct (unlink p (disk w)).
Qed.

(** ** Annotation manager, calls served one after the other *)

(** Under [UNIQUE(image_id, label_id)] a pair that is present has exactly
    one row, a pair that is absent has none. *)
Lemma pair_rows_present i l (rows : list annotation) :
  NoDup (pair_of <$> rows) → (i, l) ∈ pair_of <$> rows →
  length (filter (is_pair i l) rows) = 1%nat.
Proof.
  induction rows as [|a rows IH]; intros Hnd Hin; [by apply elem_of_nil in Hin|].
  rewrite fmap_cons in Hnd, Hin. apply NoDup_cons in Hnd as [Ha Hnd].
  rewrite filter_cons. case_decide as Hp.
  - simpl. f_equal. apply length_zero_iff_nil, elem_of_nil_inv.
    intros b [[Hbi Hbl] Hb]%list_elem_of_filter. apply Ha.
    destruct Hp as [Hai Hal]. apply list_elem_of_fmap. exists b.
    split; [|done]. unfold pair_of. congruence.
  - apply elem_of_cons in Hin as [Heq|Hin]; [|by apply IH].
    destruct Hp. unfold pair_of in Heq. by injection Heq as -> ->.
Qed.


Lemma insert_annotation_present i l d :
  has_pair i l d = true →
  insert_annotation true i l d =
    Ok (with_annotations (annotations d) (annotations_seq d + 1) d).
Proof. intros Hp. unfold insert_annotation. by rewrite Hp. Qed.

Lemma insert_annotation_absent b i l d :
  foreign_keys d = false → has_pair i l d = false →
  insert_annotation b i l d =
    Ok (with_annotations
          (annotations d ++
             [{| ann_id := annotations_seq d + 1; image_id := i; label_id := l |}])
          (annotations_seq d + 1) d).
Proof. intros Hfk Hp. unfold insert_annotation. by rewrite Hp, Hfk. Qed.

(** The messages a failed [INSERT INTO annotations] can carry. *)
Lemma insert_annotation_Err b i l d msg :
  insert_annotation b i l d = Err msg →
  msg = "SQLITE_CONSTRAINT: UNIQUE constraint failed: annotations.image_id, annotations.label_id"
  ∨ msg = "SQLITE_CONSTRAINT: FOREIGN KEY constraint failed".
Proof.
  unfold insert_annotation. destruct (has_pair i l d).
  - destruct b; [done|]. intros [= <-]. by left.
  - destruct (_ && _); [|done]. intros [= <-]. by right.
Qed.

(** The route on arguments that pass its guards. *)
Lemma post_annotations_valid iid nm d :
  iid ≠ 0 → nm ≠ "" → (js_length nm ≤ 50)%nat →
  post_annotations (Some (Num iid)) (Some nm) d =
    match select_label_id nm d with
    | Some lid =>
        match insert_annotation true iid lid d with
        | Err msg => (d, respond 400 (JError msg))
        | Ok d1 =>
            (d1, respond 200 (JSuccess "Label added (or already linked to the image)!"))
        end
    | None =>
        match insert_label nm d with
        | Err msg => (d, respond 400 (JError msg))
        | Ok (lastID, d1) =>
            match insert_annotation false iid lastID d1 with
            | Err msg => (d1, respond 400 (JError msg))
            | Ok d2 =>
                (d2, respond 200 (JSuccess "New label created and linked to the image!"))
            end
        end
    end.
Proof.
  intros Hi Hnm Hlen. unfold post_annotations, truthy_number, truthy_string.
  rewrite !decide_False by done. by rewrite bool_decide_eq_false_2 by lia.
Qed.

(** C5. Attaching a label that is already stored, twice, to the same
    image: both calls answer 200 with the message of the existing-label
    branch.  The second call writes no row: it returns the store of the
    first with every table as it was, only the id counter of the
    annotations table advanced by the id the ignored insert drew.  The
    store then holds exactly one annotation row for the pair; labels and
    images are those of the start. *)
Theorem attach_existing_label_idempotent d iid lid nm :
  store_inv d → iid ≠ 0 →
  {| lbl_id := lid; name := nm |} ∈ labels d →
  let ok := respond 200 (JSuccess "Label added (or already linked to the image)!") in
  ∃ d1,
    post_annotations (Some (Num iid)) (Some nm) d = (d1, ok) ∧
    post_annotations (Some (Num iid)) (Some nm) d1 =
      (with_annotations (annotations d1) (annotations_seq d1 + 1) d1, ok) ∧
    length (filter (is_pair iid lid) (annotations d1)) = 1%nat ∧
    labels d1 = labels d ∧ images d1 = images d.
Proof.
  intros Hinv Hi Hl ok.
  destruct (inv_label_name_ok d Hinv _ Hl) as [Hne Hlen]. simpl in Hne, Hlen.
  pose proof (select_label_id_unique nm d lid (inv_label_names d Hinv) Hl) as Hsel.
  assert (∃ d1, insert_annotation true iid lid d = Ok d1 ∧
                labels d1 = labels d ∧ images d1 = images d ∧
                has_pair iid lid d1 = true) as (d1 & Hins & Hlbl & Himg & Hp1).
  { destruct (has_pair iid lid d) eqn:Hp.
    - eexists. split; [by apply insert_annotation_present|]. by split_and!.
    - eexists. split; [by apply insert_annotation_absent; [apply Hinv|]|].
      split_and!; [done|done|].
      apply has_pair_spec. simpl. rewrite fmap_app. apply elem_of_app. right.
      by apply list_elem_of_singleton. }
  assert (store_inv d1) as Hinv1.
  { eapply insert_annotation_inv; [exact Hinv| |exact Hins].
    by apply (list_elem_of_fmap_2 lbl_id) in Hl. }
  exists d1. split_and!; [| | |done|done].
  - rewrite post_annotations_valid by done. by rewrite Hsel, Hins.
  - rewrite post_annotations_valid by done.
    unfold select_label_id in *. rewrite Hlbl, Hsel.
    by rewrite insert_annotation_present.
  - apply pair_rows_present; [apply Hinv1|by apply has_pair_spec].
Qed.

(** ** Input validation of [POST /api/annotations] *)

Lemma truthy_number_None x : truthy_number x = None ↔ falsy_id x.
Proof.
  unfold truthy_number, falsy_id. destruct x as [[|z]|].
  - split; [auto|done].
  - case_decide as Hz; [subst z; split; [auto|done]|].
    split; [done|]. intros [?|[?|[= ?]]]; done.
  - split; [auto|done].
Qed.

Lemma truthy_string_None x : truthy_string x = None ↔ falsy_name x.
Proof.
  unfold truthy_string, falsy_name. destruct x as [s|].
  - case_decide as Hs; [subst s; split; [auto|done]|].
    split; [done|]. intros [?|[= ?]]; done.
  - split; [auto|done].
Qed.

Lemma store_error_not_validation msg :
  msg = "SQLITE_CONSTRAINT: UNIQUE constraint failed: labels.name" ∨
  msg = "SQLITE_CONSTRAINT: UNIQUE constraint failed: annotations.image_id, annotations.label_id" ∨
  msg = "SQLITE_CONSTRAINT: FOREIGN KEY constraint failed" →
  ¬ validation_error (respond 400 (JError msg)).
Proof. intros [->|[->| ->]] [[=]|[=]]. Qed.

(** C4, as the route implements it.  [POST /api/annotations] answers with
    a validation error and returns the store unchanged when [imageId] is
    absent, NaN or zero, when [labelName] is absent or empty, or when
    [labelName.length], the number of UTF-16 code units of the name, is
    more than 50; on every other input, so in particular on every positive
    integer id with a name of 1 to 50 code units, the answer is not a
    validation error. *)
Theorem attach_validation imageId labelName d :
  let d' := (post_annotations imageId labelName d).1 in
  let r := (post_annotations imageId labelName d).2 in
  (falsy_id imageId ∨ falsy_name labelName ∨ too_long labelName →
   validation_error r ∧ d' = d) ∧
  (¬ falsy_id imageId → ¬ falsy_name labelName → ¬ too_long labelName →
   ¬ validation_error r) ∧
  (positive_integer imageId →
   (∃ s, labelName = Some s ∧ s ≠ "" ∧ (js_length s ≤ 50)%nat) →
   ¬ validation_error r).
Proof.
  intros d' r.
  assert (¬ falsy_id imageId → ¬ falsy_name labelName → ¬ too_long labelName →
          ¬ validation_error r) as Hvalid.
  { intros Hid Hnm Hlong. unfold r, post_annotations.
    destruct (truthy_number imageId) as [iid|] eqn:Ei;
      [|by apply truthy_number_None in Ei].
    destruct (truthy_string labelName) as [nm|] eqn:En;
      [|by apply truthy_string_None in En].
    apply truthy_string_Some in En as [-> Hne].
    case_bool_decide as Hlen; [destruct Hlong; by exists nm|].
    destruct (select_label_id nm d) as [lid|].
    - destruct (insert_annotation true iid lid d) as [d1|msg] eqn:Hins.
      + intros [[=]|[=]].
      + apply insert_annotation_Err in Hins.
        apply store_error_not_validation. tauto.
    - destruct (insert_label nm d) as [[lastID d1]|msg] eqn:Hlbl.
      + destruct (insert_annotation false iid lastID d1) as [d2|msg] eqn:Hins.
        * intros [[=]|[=]].
        * apply insert_annotation_Err in Hins.
          apply store_error_not_validation. tauto.
      + apply insert_label_Err in Hlbl as [_ ->].
        apply store_error_not_validation. tauto. }
  split_and!; [|done|].
  - intros Hbad. unfold d', r, post_annotations.
    destruct (truthy_number imageId) as [iid|] eqn:Ei; [|split; [by left|done]].
    destruct (truthy_string labelName) as [nm|] eqn:En; [|split; [by left|done]].
    apply truthy_string_Some in En as [-> Hne].
    case_bool_decide as Hlen; [split; [by right|done]|].
    destruct Hbad as [Hbad|[Hbad|(s & [= <-] & Hs)]].
    + apply truthy_number_None in Hbad. congruence.
    + destruct Hbad as [[=]|[= ->]]; done.
    + lia.
  - intros (z & -> & Hz) (s & -> & Hs & Hlen). apply Hvalid.
    + intros [[=]|[[=]|[= ->]]]. lia.
    + intros [[=]|[= ->]]. done.
    + intros (s' & [= <-] & Hlong). lia.
Qed.

(** C4 as stated fails: an id that is not a positive integer is accepted
    and the store is written. *)
Lemma attach_negative_id_accepted :
  let imageId := Some (Num (-5)) in
  ¬ positive_integer imageId ∧
  post_annotations imageId (Some "cat") db_init =
    (with_annotations [{| ann_id := 1; image_id := -5; label_id := 1 |}] 1 db_init,
     respond 200 (JSuccess "Label added (or already linked to the image)!")) ∧
  ¬ validation_error (post_annotations imageId (Some "cat") db_init).2 ∧
  (post_annotations imageId (Some "cat") db_init).1 ≠ db_init.
Proof.
  split_and!.
  - intros (z & [= <-] & Hz). lia.
  - reflexivity.
  - intros [[=]|[=]].
  - intros [=].
Qed.

(** The guard measures UTF-16 code units, neither bytes nor characters: a
    name of twenty euro signs, sixty bytes in the store, passes it, and a
    name of twenty-six characters outside the basic plane, two code units
    each, is refused. *)
Lemma attach_name_length_in_code_units :
  let euros := "€€€€€€€€€€€€€€€€€€€€" in
  let faces := "😀😀😀😀😀😀😀😀😀😀😀😀😀😀😀😀😀😀😀😀😀😀😀😀😀😀" in
  String.length euros = 60%nat ∧ js_length euros = 20%nat ∧
  (post_annotations (Some (Num 1)) (Some euros) db_init).2 = created_response ∧
  String.length faces = 104%nat ∧ js_length faces = 52%nat ∧
  (post_annotations (Some (Num 1)) (Some faces) db_init).2 =
    respond 400 (JError "Label name cannot exceed 50 characters!").
Proof. split_and!; vm_compute; reflexivity. Qed.

(** ** Annotation manager, calls whose statements interleave *)

(** A request alone takes three turns at most, and the route of the
    sequential model is what they compute. *)
Lemma attach_run_alone imageId labelName d :
  attach_run 3 (attach_begin imageId labelName) d =
    (Responded (post_annotations imageId labelName d).2,
     (post_annotations imageId labelName d).1).
Proof.
  unfold attach_begin, post_annotations.
  destruct (truthy_number imageId) as [iid|]; [|done].
  destruct (truthy_string labelName) as [nm|]; [|done].
  case_bool_decide; [done|]. simpl.
  destruct (select_label_id nm d) as [lid|]; simpl.
  - by destruct (insert_annotation true iid lid d).
  - destruct (insert_label nm d) as [[lastID d1]|]; simpl; [|done].
    by destruct (insert_annotation false iid lastID d1).
Qed.

Lemma has_pair_false i l d :
  has_pair i l d = false ↔ (i, l) ∉ pair_of <$> annotations d.
Proof. unfold has_pair. by rewrite bool_decide_eq_false. Qed.



(** No annotation of a store under the invariant carries the id the next
    label will get. *)
Lemma next_label_unused d i :
  store_inv d → has_pair i (labels_seq d + 1) d = false.
Proof.
  intros Hinv. apply has_pair_false.
  intros (a & [= Hi Hl] & Ha)%list_elem_of_fmap.
  apply (inv_pair_label d Hinv), list_elem_of_fmap in Ha as (l & Heq & Hin).
  apply (inv_label_seq d Hinv) in Hin. lia.
Qed.

Section race.
Variables (d : database) (nm : string).
Hypothesis Hinv : store_inv d.
Hypothesis Hfresh : nm ∉ name <$> labels d.











End race.




Lemma serve_reachable qs : ∀ w, reachable w → reachable (serve qs w).
Proof.
  induction qs as [|q qs IH]; intros w Hw; [done|].
  simpl. apply IH. by constructor.
Qed.


(** ** Witnesses on the sample worlds *)

Lemma gallery_reachable : reachable gallery.
Proof. apply serve_reachable. constructor. Qed.

Lemma gallery_inv : store_inv (db gallery).
Proof. apply reachable_inv, gallery_reachable. Qed.

Lemma delete_unknown_image_not_found_witness :
  delete_images_id "42" gallery =
    (gallery, respond 404 (JError "Image not found in the database!")).
Proof.
  apply (delete_unknown_image_not_found "42" 42).
  - reflexivity.
  - apply (bool_decide_unpack _). vm_compute. exact I.
Defined.

Lemma detach_always_succeeds_witness :
  delete_annotations (Some (Num 1)) (Some (Num 2)) (db gallery) =
    (with_annotations [{| ann_id := 1; image_id := 1; label_id := 1 |}] 2 (db gallery),
     respond 200 (JSuccess "Label removed from the image successfully!")).
Proof.
  destruct (detach_always_succeeds 1 2 (db gallery)) as (Hrun & _); [lia|lia|].
  exact Hrun.
Defined.

Lemma delete_image_best_effort_witness :
  ∃ w',
    delete_images_id "1" gallery_locked =
      (w', respond 200
             (JSuccess "Image deleted successfully (including file and annotations)!")) ∧
    annotations (db w') = [] ∧
    img_id <$> images (db w') = [2] ∧
    disk w' = disk gallery_locked ∧
    console w' =
      ["File deletion failed: EPERM: operation not permitted, unlink '/srv/backend/uploads/image-1700000000000.jpg'"].
Proof.
  destruct (delete_image_best_effort "1" 1 gallery_locked)
    as (w' & p & Hrun & Hann & Himg & _ & Hp & Hfs).
  - reflexivity.
  - apply (bool_decide_unpack _). vm_compute. exact I.
  - assert (select_file_path 1 (db gallery_locked) =
            Some "/srv/backend/uploads/image-1700000000000.jpg") as Hpath
      by (vm_compute; reflexivity).
    rewrite Hpath in Hp. injection Hp as <-.
    assert (unlink "/srv/backend/uploads/image-1700000000000.jpg" (disk gallery_locked) =
            Err "EPERM: operation not permitted, unlink '/srv/backend/uploads/image-1700000000000.jpg'")
      as Hunlink by (vm_compute; reflexivity).
    rewrite Hunlink in Hfs. destruct Hfs as [Hdisk Hlog].
    exists w'. split_and!.
    + exact Hrun.
    + rewrite Hann. vm_compute. reflexivity.
    + rewrite Himg. vm_compute. reflexivity.
    + exact Hdisk.
    + rewrite Hlog. vm_compute. reflexivity.
Defined.

Lemma attach_existing_label_idempotent_witness :
  ∃ d1,
    post_annotations (Some (Num 2)) (Some "dog") (db gallery) = (d1, linked_response) ∧
    post_annotations (Some (Num 2)) (Some "dog") d1 =
      (with_annotations (annotations d1) (annotations_seq d1 + 1) d1, linked_response) ∧
    length (filter (is_pair 2 2) (annotations d1)) = 1%nat.
Proof.
  destruct (attach_existing_label_idempotent (db gallery) 2 2 "dog")
    as (d1 & Hfirst & Hsecond & Hone & _).
  - apply gallery_inv.
  - lia.
  - apply (bool_decide_unpack _). vm_compute. exact I.
  - exists d1. split_and!; [exact Hfirst|exact Hsecond|exact Hone].
Defined.


Lemma attach_validation_witness :
  validation_error (post_annotations (Some (Num 0)) (Some "cat") (db gallery)).2 ∧
  (post_annotations (Some (Num 0)) (Some "cat") (db gallery)).1 = db gallery ∧
  ¬ validation_error (post_annotations (Some (Num 2)) (Some "cat") (db gallery)).2.
Proof.
  destruct (attach_validation (Some (Num 0)) (Some "cat") (db gallery)) as (Hbad & _).
  destruct (attach_validation (Some (Num 2)) (Some "cat") (db gallery)) as (_ & _ & Hgood).
  split_and!.
  - apply Hbad. left. unfold falsy_id. auto.
  - apply Hbad. left. unfold falsy_id. auto.
  - apply Hgood.
    + exists 2. split; [done|lia].
    + exists "cat". split_and!; [done|discriminate|simpl; lia].
Defined.


(** ** Referential integrity of the annotations table *)

(** The connection never turns the pragma on, so the [FOREIGN KEY] clauses
    of the schema are not enforced in any state the server reaches. *)
Lemma foreign_keys_never_enabled w : reachable w → foreign_keys (db w) = false.
Proof. intros Hw. apply (inv_pragma _ (reachable_inv w Hw)). Qed.

(** The label side holds all the same: the routes only ever link a label
    they have just read or created, and no route deletes a label. *)
Lemma label_side_integrity w a :
  reachable w → a ∈ annotations (db w) → label_id a ∈ lbl_id <$> labels (db w).
Proof. intros Hw. apply (inv_pair_label _ (reachable_inv w Hw)). Qed.

(** With the pragma on, the statement the route issues would refuse an
    image id that no row carries. *)
Lemma enforced_keys_refuse_unknown_image b i l d :
  foreign_keys d = true → i ∉ img_id <$> images d →
  (i, l) ∉ pair_of <$> annotations d →
  insert_annotation b i l d =
    Err "SQLITE_CONSTRAINT: FOREIGN KEY constraint failed".
Proof.
  intros Hfk Hi Hp. unfold insert_annotation.
  apply has_pair_false in Hp. rewrite Hp, Hfk.
  unfold has_image. by rewrite bool_decide_eq_false_2.
Qed.

(** C1 on the code: attaching a stored label to an image id that no row
    carries is accepted.  The reachable store that results holds an
    annotation row whose [image_id] references no image. *)
Theorem attach_unknown_image_dangles :
  let q := PostAnnotations (Some (Num 999)) (Some "cat") in
  let w := (handle q gallery).1 in
  reachable w ∧
  (handle q gallery).2 = linked_response ∧
  img_id <$> images (db w) = [1; 2] ∧
  annotations (db w) =
    [{| ann_id := 1; image_id := 1; label_id := 1 |};
     {| ann_id := 2; image_id := 1; label_id := 2 |};
     {| ann_id := 3; image_id := 999; label_id := 1 |}] ∧
  ¬ referential_integrity (db w).
Proof.
  intros q w.
  assert (annotations (db w) =
            [{| ann_id := 1; image_id := 1; label_id := 1 |};
             {| ann_id := 2; image_id := 1; label_id := 2 |};
             {| ann_id := 3; image_id := 999; label_id := 1 |}]) as Hann
    by (vm_compute; reflexivity).
  assert (img_id <$> images (db w) = [1; 2]) as Himg by (vm_compute; reflexivity).
  split_and!.
  - constructor. apply gallery_reachable.
  - vm_compute. reflexivity.
  - exact Himg.
  - exact Hann.
  - intros Hri.
    destruct (Hri {| ann_id := 3; image_id := 999; label_id := 1 |}) as [Hin _].
    + rewrite Hann. apply (bool_decide_unpack _). vm_compute. exact I.
    + rewrite Himg in Hin. simpl in Hin.
      apply (bool_decide_pack _) in Hin. vm_compute in Hin. exact Hin.
Qed.

(** ** Upload handler *)

(** Two files with the same extension uploaded within the same
    millisecond get the same name. *)
Lemma storage_filename_same_extension now f1 f2 :
  last (split "." (originalname f1)) = last (split "." (originalname f2)) →
  storage_filename now f1 = storage_filename now f2.
Proof. unfold storage_filename. by intros ->. Qed.

(** C7 on the code: two accepted uploads within one millisecond.  Both
    pass the filter and receive the same generated name; the second upload
    replaces the stored file of the first, and its row is then refused by
    [UNIQUE(filename)], so the image row of the first upload points to the
    content of the second. *)
Theorem uploads_same_millisecond_collide :
  let a := {| originalname := "a.png"; mimetype := "image/png"; content := "first" |} in
  let b := {| originalname := "b.png"; mimetype := "image/png"; content := "second" |} in
  let now := 1700000000000 in
  let path := "/srv/backend/uploads/image-1700000000000.png" in
  let w1 :=
    (post_images "/srv/backend" now 1700000000 (Some a) (initial_world empty_disk)).1 in
  let w2 := (post_images "/srv/backend" now 1700000000 (Some b) w1).1 in
  a ≠ b ∧
  fileFilter a = Ok () ∧ fileFilter b = Ok () ∧
  storage_filename now a = storage_filename now b ∧
  (post_images "/srv/backend" now 1700000000 (Some a) (initial_world empty_disk)).2 =
    respond 201 (JCreated 1 "image-1700000000000.png") ∧
  files (disk w1) !! path = Some "first" ∧
  (post_images "/srv/backend" now 1700000000 (Some b) w1).2 =
    respond 400 (JError "SQLITE_CONSTRAINT: UNIQUE constraint failed: images.filename") ∧
  files (disk w2) !! path = Some "second" ∧
  select_file_path 1 (db w2) = Some path.
Proof.
  intros a b now path w1 w2.
  split_and!; try (vm_compute; reflexivity).
  intros [=].
Qed.

(** ** Query service *)

(** C6 on the code: a label whose name contains the delimiter.  The
    listing joins two labels into [labels] and two ids into [labelIds];
    splitting on the delimiter yields three names and two ids, the name at
    index 1 is not the name of the label whose id is at index 1, and the
    name at index 2 has no id: the page pairs "paper" with the id of
    "tree" and "tree" with [undefined]. *)
Theorem listing_splits_name_with_delimiter :
  let w := serve [PostAnnotations (Some (Num 2)) (Some "rock, paper");
                  PostAnnotations (Some (Num 2)) (Some "tree")] gallery in
  reachable w ∧
  labels (db w) =
    [{| lbl_id := 1; name := "cat" |}; {| lbl_id := 2; name := "dog" |};
     {| lbl_id := 3; name := "car" |}; {| lbl_id := 4; name := "rock, paper" |};
     {| lbl_id := 5; name := "tree" |}] ∧
  ∃ row,
    images_with_labels (db w) !! 1%nat = Some row ∧
    row_id row = 2 ∧
    row_labels row = Some "rock, paper, tree" ∧
    row_labelIds row = Some "4, 5" ∧
    split_field (row_labels row) = ["rock"; "paper"; "tree"] ∧
    split_field (row_labelIds row) = ["4"; "5"] ∧
    labelTags row = [("rock", 2, Some "4"); ("paper", 2, Some "5"); ("tree", 2, None)].
Proof.
  intros w. split_and!.
  - apply serve_reachable, gallery_reachable.
  - vm_compute. reflexivity.
  - eexists. split; [vm_compute; reflexivity|].
    split_and!; vm_compute; reflexivity.
Qed.

(** ** Positional correspondence of the listing *)

Lemma append_cons c (s1 s2 : string) : String c s1 +:+ s2 = String c (s1 +:+ s2).
Proof. reflexivity. Qed.

Lemma append_nil_l (s : string) : "" +:+ s = s.
Proof. reflexivity. Qed.

Lemma append_nil_r (s : string) : s +:+ "" = s.
Proof.
  induction s as [|c s IH]; [done|]. by rewrite append_cons, IH.
Qed.

Lemma append_assoc (s1 s2 s3 : string) : (s1 +:+ s2) +:+ s3 = s1 +:+ s2 +:+ s3.
Proof.
  induction s1 as [|c s1 IH]; [done|]. by rewrite !append_cons, IH.
Qed.

Lemma prefix_empty s : String.prefix "" s = true.
Proof. by destruct s. Qed.

Lemma prefix_cons a s1 b s2 :
  String.prefix (String a s1) (String b s2) =
    if decide (a = b) then String.prefix s1 s2 else false.
Proof. simpl. by destruct (ascii_dec a b), (decide (a = b)). Qed.

Lemma has_delimiter_cons c s :
  has_delimiter (String c s) = String.prefix ", " (String c s) || has_delimiter s.
Proof. reflexivity. Qed.

Lemma split_from_cons sep piece c s :
  split_from sep 0 piece (String c s) =
    if String.prefix sep (String c s) then
      piece :: split_from sep (String.length sep - 1) EmptyString s
    else split_from sep 0 (piece +:+ String c EmptyString) s.
Proof. reflexivity. Qed.

(** A piece without delimiter, followed by the delimiter, is read off as
    one element. *)
Lemma split_from_piece s : ∀ piece rest,
  has_delimiter s = false →
  split_from ", " 0 piece (s +:+ ", " +:+ rest) =
    (piece +:+ s) :: split_from ", " 0 "" rest.
Proof.
  induction s as [|c s IH]; intros piece rest Hs.
  - rewrite append_nil_l, append_nil_r, !append_cons, append_nil_l.
    rewrite split_from_cons, !prefix_cons, !decide_True, prefix_empty by done.
    reflexivity.
  - rewrite has_delimiter_cons in Hs. apply orb_false_iff in Hs as [Hhere Hs].
    rewrite append_cons, split_from_cons.
    assert (String.prefix ", " (String c (s +:+ ", " +:+ rest)) = false) as ->.
    { rewrite prefix_cons in Hhere |- *. case_decide as Hc; [|done].
      destruct s as [|c' s].
      - rewrite append_nil_l, !append_cons, prefix_cons. by rewrite decide_False.
      - rewrite append_cons, prefix_cons. rewrite prefix_cons in Hhere.
        case_decide; [|done]. by rewrite prefix_empty in Hhere. }
    rewrite IH by done. by rewrite append_assoc.
Qed.

Lemma split_from_last s : ∀ piece,
  has_delimiter s = false → split_from ", " 0 piece s = [piece +:+ s].
Proof.
  induction s as [|c s IH]; intros piece Hs.
  - by rewrite append_nil_r.
  - rewrite has_delimiter_cons in Hs. apply orb_false_iff in Hs as [Hhere Hs].
    rewrite split_from_cons, Hhere.
    rewrite IH by done. by rewrite append_assoc.
Qed.

Lemma foldl_join (v : string) (vs : list string) :
  foldl (λ acc x, acc +:+ ", " +:+ x) v vs = v +:+ join_tail vs.
Proof.
  revert v. induction vs as [|x vs IH]; intros v; simpl.
  - by rewrite append_nil_r.
  - rewrite IH. by rewrite !append_assoc.
Qed.

Lemma split_joined (vs : list string) : ∀ v,
  has_delimiter v = false → Forall (λ x, has_delimiter x = false) vs →
  split ", " (v +:+ join_tail vs) = v :: vs.
Proof.
  unfold split.
  induction vs as [|x vs IH]; intros v Hv Hvs; simpl.
  - rewrite append_nil_r. by rewrite split_from_last.
  - apply Forall_cons in Hvs as [Hx Hvs].
    rewrite split_from_piece by done. rewrite append_nil_l. f_equal.
    rewrite <- (append_nil_l (x +:+ join_tail vs)).
    rewrite <- IH by done. by rewrite append_nil_l.
Qed.

Lemma comma_free_no_delimiter s : comma_free s = true → has_delimiter s = false.
Proof.
  induction s as [|c s IH]; [done|]. simpl comma_free.
  intros [Hc Hs]%andb_true_iff. rewrite has_delimiter_cons, IH by done.
  rewrite prefix_cons. apply negb_true_iff, bool_decide_eq_false in Hc.
  by rewrite decide_False.
Qed.

Lemma comma_free_uint d : comma_free (NilEmpty.string_of_uint d) = true.
Proof. induction d; simpl; by rewrite ?IHd. Qed.

Lemma string_of_Z_no_delimiter z : has_delimiter (string_of_Z z) = false.
Proof.
  apply comma_free_no_delimiter. unfold string_of_Z, NilZero.string_of_int.
  assert (∀ d, comma_free (NilZero.string_of_uint d) = true) as Hu.
  { intros d. destruct d; try apply comma_free_uint. done. }
  destruct (Z.to_int z); simpl; by rewrite Hu.
Qed.

Lemma string_of_Z_nonempty z : string_of_Z z ≠ "".
Proof.
  unfold string_of_Z, NilZero.string_of_int.
  assert (∀ d, NilZero.string_of_uint d ≠ "") as Hu by (intros []; done).
  destruct (Z.to_int z); [apply Hu|done].
Qed.

Lemma append_nonempty (s1 s2 : string) : s1 ≠ "" → s1 +:+ s2 ≠ "".
Proof. destruct s1; [done|]. by rewrite append_cons. Qed.

(** Splitting what [GROUP_CONCAT] joined gives the values back, provided
    no value is empty or holds the delimiter. *)
Lemma split_field_group_concat (vs : list string) :
  Forall (λ x, x ≠ "" ∧ has_delimiter x = false) vs →
  split_field (group_concat ", " vs) = vs.
Proof.
  intros Hvs. destruct vs as [|v vs]; [done|].
  apply Forall_cons in Hvs as [[Hne Hv] Hvs].
  unfold group_concat, split_field. rewrite foldl_join.
  unfold truthy_string. rewrite decide_False by by apply append_nonempty.
  apply split_joined; [done|]. eapply Forall_impl; [exact Hvs|]. by intros x [_ ?].
Qed.

Lemma joined_labels_stored r d l : l ∈ joined_labels r d → l ∈ labels d.
Proof.
  unfold joined_labels. intros (a & Hl & _)%list_elem_of_bind.
  by apply list_elem_of_filter in Hl as [_ ?].
Qed.

(** One entry per stored image, in table order. *)
Lemma listing_one_row_per_image d :
  row_id <$> images_with_labels d = img_id <$> images d.
Proof.
  unfold images_with_labels. rewrite <- list_fmap_compose. done.
Qed.

(** An image without annotation is listed, with both fields NULL. *)
Lemma listing_unlabelled d r :
  r ∈ images d → (∀ a, a ∈ annotations d → image_id a ≠ img_id r) →
  {| row_id := img_id r; row_filename := filename r; row_file_path := file_path r;
     row_labels := None; row_labelIds := None |} ∈ images_with_labels d.
Proof.
  intros Hr Hnone. unfold images_with_labels. apply list_elem_of_fmap.
  exists r. split; [|done].
  assert (joined_labels r d = []) as ->; [|done].
  unfold joined_labels, annotations_of.
  assert (filter (λ a, image_id a = img_id r) (annotations d) = []) as ->; [|done].
  apply elem_of_nil_inv. intros a [Heq Ha]%list_elem_of_filter.
  by apply Hnone in Ha.
Qed.

(** When no stored label name holds the delimiter, the two fields of a
    row split into the names and the ids of one list of stored labels:
    the id at index i is the id of the label named at index i. *)
Lemma listing_aligned d row :
  store_inv d →
  (∀ l, l ∈ labels d → has_delimiter (name l) = false) →
  row ∈ images_with_labels d →
  ∃ ls : list label,
    Forall (λ l, l ∈ labels d) ls ∧
    split_field (row_labels row) = name <$> ls ∧
    split_field (row_labelIds row) = string_of_Z ∘ lbl_id <$> ls.
Proof.
  intros Hinv Hfree (r & -> & Hr)%list_elem_of_fmap. simpl.
  exists (joined_labels r d).
  assert (Forall (λ l, l ∈ labels d) (joined_labels r d)) as Hls.
  { apply Forall_forall. intros l. apply joined_labels_stored. }
  split_and!; [done| |].
  - apply split_field_group_concat, Forall_fmap. eapply Forall_impl; [exact Hls|].
    intros l Hl. simpl. split; [apply (inv_label_name_ok d Hinv l Hl)|by apply Hfree].
  - apply split_field_group_concat, Forall_fmap, Forall_forall.
    intros l _. simpl. split; [apply string_of_Z_nonempty|apply string_of_Z_no_delimiter].
Qed.

(** * Further properties of the routes *)

(** ** What a route leaves alone *)

Lemma insert_annotation_grows b i l d d' :
  insert_annotation b i l d = Ok d' →
  images d' = images d ∧ images_seq d' = images_seq d ∧
  labels d' = labels d ∧ labels_seq d' = labels_seq d ∧
  foreign_keys d' = foreign_keys d ∧
  annotations_seq d' = annotations_seq d + 1 ∧
  ((has_pair i l d = true ∧ annotations d' = annotations d) ∨
   (has_pair i l d = false ∧
    annotations d' =
      annotations d ++
        [{| ann_id := annotations_seq d + 1; image_id := i; label_id := l |}])).
Proof.
  unfold insert_annotation. destruct (has_pair i l d) eqn:Hp.
  - destruct b; [|done]. intros [= <-]. split_and!; auto.
  - destruct (_ && _); [done|]. intros [= <-]. split_and!; auto.
Qed.

Lemma post_annotations_labels_prefix imageId labelName d :
  labels d `prefix_of` labels (post_annotations imageId labelName d).1.
Proof.
  unfold post_annotations.
  destruct (truthy_number imageId) as [iid|]; [|done].
  destruct (truthy_string labelName) as [nm|]; [|done].
  case_bool_decide; [done|].
  destruct (select_label_id nm d) as [lid|].
  - destruct (insert_annotation true iid lid d) as [d1|] eqn:Hins; [|done].
    apply insert_annotation_grows in Hins as (_ & _ & Hl & _). simpl. by rewrite Hl.
  - destruct (insert_label nm d) as [[lastID d1]|] eqn:Hlbl; [|done].
    apply insert_label_Ok in Hlbl as (_ & -> & ->).
    destruct (insert_annotation false iid _ _) as [d2|] eqn:Hins; simpl.
    + apply insert_annotation_grows in Hins as (_ & _ & Hl & _).
      rewrite Hl. simpl. by apply prefix_app_r.
    + by apply prefix_app_r.
Qed.

Lemma post_images_labels dirname now ts f w :
  labels (db (post_images dirname now ts f w).1) = labels (db w).
Proof.
  unfold post_images. destruct f as [f|]; [|done].
  destruct (fileFilter f); [|done].
  case_bool_decide; [done|]. simpl.
  unfold insert_image. by case_decide.
Qed.

Lemma delete_annotations_labels imageId labelId d :
  labels (delete_annotations imageId labelId d).1 = labels d.
Proof.
  unfold delete_annotations.
  destruct (truthy_number imageId); [|done].
  destruct (truthy_number labelId); [|done].
  by destruct (isNaN imageId || isNaN labelId).
Qed.

Lemma delete_images_id_labels id w :
  labels (db (delete_images_id id w).1) = labels (db w).
Proof.
  unfold delete_images_id.
  destruct (parseInt id) as [|n]; [done|].
  destruct (select_file_path n (db w)) as [p|]; [|done].
  destruct (unlink p (disk w)); simpl; unfold delete_image; simpl;
    by destruct (foreign_keys (db w) && _).
Qed.

(** [POST /api/annotations] never touches the images table and never
    removes or rewrites a row: whatever the arguments and the outcome, the
    labels and the annotations it returns are those it received, each
    followed by at most one new row. *)
Theorem attach_only_appends imageId labelName d :
  let d' := (post_annotations imageId labelName d).1 in
  images d' = images d ∧ images_seq d' = images_seq d ∧
  (∃ new, labels d' = labels d ++ new ∧ (length new ≤ 1)%nat) ∧
  (∃ new, annotations d' = annotations d ++ new ∧ (length new ≤ 1)%nat).
Proof.
  assert (∀ {A} (l : list A), ∃ new, l = l ++ new ∧ (length new ≤ 1)%nat) as Hsame.
  { intros A l. exists []. by rewrite app_nil_r; simpl; split; [|lia]. }
  unfold post_annotations.
  destruct (truthy_number imageId) as [iid|]; [|by split_and!].
  destruct (truthy_string labelName) as [nm|]; [|by split_and!].
  case_bool_decide; [by split_and!|].
  destruct (select_label_id nm d) as [lid|].
  - destruct (insert_annotation true iid lid d) as [d1|] eqn:Hins; [|by split_and!].
    apply insert_annotation_grows in Hins
      as (Hi & His & Hl & _ & _ & _ & [(_ & Ha) | (_ & Ha)]); simpl;
      (split_and!; [done|done|rewrite Hl; apply Hsame|rewrite Ha]).
    + apply Hsame.
    + eexists. split; [done|simpl; lia].
  - destruct (insert_label nm d) as [[lastID d1]|] eqn:Hlbl; [|by split_and!].
    apply insert_label_Ok in Hlbl as (_ & -> & ->).
    assert (∃ new, labels d ++ [{| lbl_id := labels_seq d + 1; name := nm |}] =
                   labels d ++ new ∧ (length new ≤ 1)%nat) as Hone.
    { eexists. split; [done|simpl; lia]. }
    destruct (insert_annotation false iid _ _) as [d2|] eqn:Hins;
      [|by split_and!].
    apply insert_annotation_grows in Hins
      as (Hi & His & Hl & _ & _ & _ & [(_ & Ha) | (_ & Ha)]); simpl;
      (split_and!; [done|done|by rewrite Hl|rewrite Ha; simpl]).
    + apply Hsame.
    + eexists. split; [done|simpl; lia].
Qed.

(** [POST /api/images] never touches the labels and the annotations and
    never removes or rewrites an image row. *)
Theorem upload_only_appends dirname now current_timestamp f w :
  let d' := db (post_images dirname now current_timestamp f w).1 in
  labels d' = labels (db w) ∧ labels_seq d' = labels_seq (db w) ∧
  annotations d' = annotations (db w) ∧
  annotations_seq d' = annotations_seq (db w) ∧
  ∃ new, images d' = images (db w) ++ new ∧ (length new ≤ 1)%nat.
Proof.
  assert (∃ new, images (db w) = images (db w) ++ new ∧ (length new ≤ 1)%nat) as Hsame.
  { exists []. rewrite app_nil_r. split; [done|simpl; lia]. }
  unfold post_images. destruct f as [f|]; [|by split_and!].
  destruct (fileFilter f); [|by split_and!].
  case_bool_decide; [by split_and!|]. simpl.
  unfold insert_image. case_decide; [by split_and!|]. simpl.
  split_and!; try done. eexists. split; [done|simpl; lia].
Qed.

Lemma handle_labels_prefix q w :
  labels (db w) `prefix_of` labels (db (handle q w).1).
Proof.
  destruct q as [dirname now ts f|imageId labelName| |id|imageId labelId]; simpl.
  - by rewrite post_images_labels.
  - unfold on_db.
    pose proof (post_annotations_labels_prefix imageId labelName (db w)) as Hl.
    by destruct (post_annotations imageId labelName (db w)) as [d' r].
  - done.
  - by rewrite delete_images_id_labels.
  - unfold on_db.
    pose proof (delete_annotations_labels imageId labelId (db w)) as Hl.
    destruct (delete_annotations imageId labelId (db w)) as [d' r]. simpl in *.
    by rewrite Hl.
Qed.

(** No route removes, renames or renumbers a label: after any sequence of
    requests the labels table starts with the labels table it started
    from, row for row. *)
Theorem labels_append_only qs w :
  labels (db w) `prefix_of` labels (db (serve qs w)).
Proof.
  revert w. induction qs as [|q qs IH]; intros w; [done|].
  simpl. etrans; [apply handle_labels_prefix|apply IH].
Qed.

(** ** The seed statement and a restart of the server *)

Lemma insert_or_ignore_label_present d nm :
  nm ∈ name <$> labels d →
  insert_or_ignore_label d nm = with_labels (labels d) (labels_seq d + 1) d.
Proof.
  intros Hin. unfold insert_or_ignore_label, insert_label.
  by rewrite decide_True.
Qed.

Lemma insert_or_ignore_label_names d nm x :
  x ∈ name <$> labels d ∨ x = nm →
  x ∈ name <$> labels (insert_or_ignore_label d nm).
Proof.
  unfold insert_or_ignore_label, insert_label.
  case_decide as Hin; simpl; [by intros [?| ->]|].
  rewrite fmap_app, elem_of_app. intros [?| ->]; [by left|right].
  by apply list_elem_of_singleton.
Qed.

Lemma reachable_labels_prefix w :
  reachable w → labels db_init `prefix_of` labels (db w).
Proof.
  induction 1 as [f|q w _ IH]; [done|].
  etrans; [exact IH|apply handle_labels_prefix].
Qed.

(** Running the seed statement of [db.ts] again, as a restart of the
    server does, writes no row: on a store that has been seeded before, and
    so on every store the server has reached, because the three default
    labels are still there, every table is returned as it was.  The three
    ignored rows spend one id each: the counter of the labels table is
    three higher, and the next label created takes the id four above the
    counter of before the restart. *)
Theorem seed_labels_on_restart :
  (∀ d, let d1 := seed_labels d in
        seed_labels d1 = with_labels (labels d1) (labels_seq d1 + 3) d1) ∧
  (∀ w, reachable w →
        seed_labels (db w) =
          with_labels (labels (db w)) (labels_seq (db w) + 3) (db w)) ∧
  (∀ w nm, reachable w → nm ∉ name <$> labels (db w) →
        ∃ d', insert_label nm (seed_labels (db w)) = Ok (labels_seq (db w) + 4, d')).
Proof.
  assert (∀ d, "cat" ∈ name <$> labels d → "dog" ∈ name <$> labels d →
               "car" ∈ name <$> labels d →
               seed_labels d = with_labels (labels d) (labels_seq d + 3) d) as Hid.
  { intros d Hcat Hdog Hcar. unfold seed_labels. simpl.
    rewrite (insert_or_ignore_label_present d "cat") by done.
    rewrite (insert_or_ignore_label_present _ "dog") by done.
    rewrite (insert_or_ignore_label_present _ "car") by done.
    unfold with_labels. simpl. f_equal. lia. }
  assert (∀ w, reachable w →
            seed_labels (db w) =
              with_labels (labels (db w)) (labels_seq (db w) + 3) (db w)) as Hreached.
  { intros w Hw. apply reachable_labels_prefix in Hw.
    assert (∀ nm, nm ∈ name <$> labels db_init → nm ∈ name <$> labels (db w)) as Hin.
    { intros nm (l & -> & Hl)%list_elem_of_fmap. apply list_elem_of_fmap_2.
      by eapply elem_of_prefix. }
    apply Hid; apply Hin; apply (bool_decide_unpack _); vm_compute; exact I. }
  split_and!; [|done|].
  - intros d d1. apply Hid; unfold d1, seed_labels; simpl.
    + do 2 (apply insert_or_ignore_label_names; left).
      apply insert_or_ignore_label_names. by right.
    + apply insert_or_ignore_label_names; left.
      apply insert_or_ignore_label_names. by right.
    + apply insert_or_ignore_label_names. by right.
  - intros w nm Hw Hfresh. rewrite Hreached by done.
    unfold insert_label. simpl. rewrite decide_False by done.
    eexists. do 2 f_equal. lia.
Qed.

(** ** Row ids *)

Lemma ids_positive_init : ids_positive db_init.
Proof.
  split; simpl; try lia.
  - intros r Hr. by apply elem_of_nil in Hr.
  - intros l Hl. repeat (apply elem_of_cons in Hl as [->|Hl]); simpl; try lia.
    by apply elem_of_nil in Hl.
  - intros a Ha. by apply elem_of_nil in Ha.
Qed.

Lemma insert_annotation_ids_positive b i l d d' :
  ids_positive d → insert_annotation b i l d = Ok d' → ids_positive d'.
Proof.
  intros Hpos Hins. pose proof Hpos as [].
  apply insert_annotation_grows in Hins
    as (Hi & His & Hl & Hls & _ & Has & [(_ & Ha) | (_ & Ha)]);
    (split; rewrite ?Hi, ?His, ?Hl, ?Hls, ?Ha, ?Has; try done; try lia).
  intros a [Hin | ->%list_elem_of_singleton]%elem_of_app; simpl; [auto|lia].
Qed.

Lemma post_annotations_ids_positive imageId labelName d :
  ids_positive d → ids_positive (post_annotations imageId labelName d).1.
Proof.
  intros Hpos. unfold post_annotations.
  destruct (truthy_number imageId) as [iid|]; [|done].
  destruct (truthy_string labelName) as [nm|]; [|done].
  case_bool_decide; [done|].
  destruct (select_label_id nm d) as [lid|].
  - destruct (insert_annotation true iid lid d) as [d1|] eqn:Hins; [|done].
    by eapply insert_annotation_ids_positive.
  - destruct (insert_label nm d) as [[lastID d1]|] eqn:Hlbl; [|done].
    apply insert_label_Ok in Hlbl as (_ & -> & ->).
    assert (ids_positive
              (with_labels (labels d ++ [{| lbl_id := labels_seq d + 1; name := nm |}])
                 (labels_seq d + 1) d)) as Hpos1.
    { destruct Hpos. split; simpl; try done; try lia.
      intros l [Hin | ->%list_elem_of_singleton]%elem_of_app; simpl; [auto|lia]. }
    destruct (insert_annotation false iid _ _) as [d2|] eqn:Hins; [|done].
    by eapply insert_annotation_ids_positive.
Qed.

Lemma delete_annotations_of_image_ids_positive i d d' :
  ids_positive d → delete_annotations_of_image i d = Ok d' → ids_positive d'.
Proof.
  intros [] [= <-]. split; simpl; try done.
  intros a [_ Ha]%list_elem_of_filter. auto.
Qed.

Lemma delete_image_ids_positive i d d' :
  ids_positive d → delete_image i d = Ok d' → ids_positive d'.
Proof.
  intros []. unfold delete_image. intros [= <-].
  destruct (foreign_keys d && _); split; simpl; try done.
  - intros r [_ Hr]%list_elem_of_filter. auto.
  - intros a [_ Ha]%list_elem_of_filter. auto.
  - intros r [_ Hr]%list_elem_of_filter. auto.
Qed.

Lemma handle_ids_positive q w :
  ids_positive (db w) → ids_positive (db (handle q w).1).
Proof.
  intros Hpos.
  destruct q as [dirname now ts f|imageId labelName| |id|imageId labelId]; simpl.
  - unfold post_images. destruct f as [f|]; [|done].
    destruct (fileFilter f); [|done]. case_bool_decide; [done|]. simpl.
    unfold insert_image. case_decide; [done|]. simpl.
    destruct Hpos. split; simpl; try done; try lia.
    intros r [Hin | ->%list_elem_of_singleton]%elem_of_app; simpl; [auto|lia].
  - unfold on_db.
    pose proof (post_annotations_ids_positive imageId labelName (db w) Hpos) as H.
    by destruct (post_annotations imageId labelName (db w)).
  - done.
  - unfold delete_images_id. destruct (parseInt id) as [|n]; [done|].
    destruct (select_file_path n (db w)) as [p|]; [|done].
    set (w1 := match unlink p (disk w) with Ok _ => _ | Err _ => _ end).
    assert (db w1 = db w) as Hdb by (unfold w1; by destruct (unlink p (disk w))).
    rewrite Hdb.
    destruct (delete_annotations_of_image n (db w)) as [d2|] eqn:H2; [|done].
    apply delete_annotations_of_image_ids_positive in H2; [|done].
    destruct (delete_image n d2) as [d3|] eqn:H3; [|done].
    by apply delete_image_ids_positive in H3.
  - unfold on_db, delete_annotations.
    destruct (truthy_number imageId) as [iid|]; [|done].
    destruct (truthy_number labelId) as [lid|]; [|done].
    destruct (isNaN imageId || isNaN labelId); [done|]. simpl.
    destruct Hpos. split; simpl; try done.
    intros a [_ Ha]%list_elem_of_filter. auto.
Qed.

Lemma reachable_ids_positive w : reachable w → ids_positive (db w).
Proof.
  induction 1 as [f|q w _ IH]; [apply ids_positive_init|by apply handle_ids_positive].
Qed.

(** In every state the server reaches, the store satisfies what the
    schema declares and the guards of the routes let through: ids are
    positive and unique, file names are unique, label names are unique,
    non-empty and at most 50 UTF-16 code units long, which is what the
    guard of the route measures, no image carries a label twice, and
    every annotation references a stored label. *)
Theorem reachable_schema_constraints w :
  reachable w →
  let d := db w in
  NoDup (img_id <$> images d) ∧ NoDup (filename <$> images d) ∧
  NoDup (lbl_id <$> labels d) ∧ NoDup (name <$> labels d) ∧
  NoDup (pair_of <$> annotations d) ∧
  (∀ r, r ∈ images d → 0 < img_id r ≤ images_seq d) ∧
  (∀ l, l ∈ labels d →
        0 < lbl_id l ≤ labels_seq d ∧
        name l ≠ "" ∧ (js_length (name l) ≤ 50)%nat) ∧
  (∀ a, a ∈ annotations d → label_id a ∈ lbl_id <$> labels d).
Proof.
  intros Hw d.
  pose proof (reachable_inv w Hw) as Hinv.
  pose proof (reachable_ids_positive w Hw) as Hpos.
  destruct Hinv, Hpos. split_and!; try done.
  - intros r Hr. split; [by apply pos_image_ids0|by apply inv_image_seq0].
  - intros l Hl. destruct (inv_label_name_ok0 l Hl) as [Hne Hlen].
    split_and!; [by apply pos_label_ids0|by apply inv_label_seq0|done|done].
Qed.

Lemma post_annotations_images imageId labelName d :
  images (post_annotations imageId labelName d).1 = images d ∧
  images_seq (post_annotations imageId labelName d).1 = images_seq d.
Proof.
  unfold post_annotations.
  destruct (truthy_number imageId) as [iid|]; [|done].
  destruct (truthy_string labelName) as [nm|]; [|done].
  case_bool_decide; [done|].
  destruct (select_label_id nm d) as [lid|].
  - destruct (insert_annotation true iid lid d) as [d1|] eqn:Hins; [|done].
    by apply insert_annotation_grows in Hins as (Hi & Hs & _).
  - destruct (insert_label nm d) as [[lastID d1]|] eqn:Hlbl; [|done].
    apply insert_label_Ok in Hlbl as (_ & -> & ->).
    destruct (insert_annotation false iid _ _) as [d2|] eqn:Hins; [|done].
    by apply insert_annotation_grows in Hins as (Hi & Hs & _).
Qed.

Lemma delete_images_id_images id w :
  images_seq (db (delete_images_id id w).1) = images_seq (db w) ∧
  ∀ r, r ∈ images (db (delete_images_id id w).1) → r ∈ images (db w).
Proof.
  unfold delete_images_id. destruct (parseInt id) as [|n]; [done|].
  destruct (select_file_path n (db w)) as [p|]; [|done].
  set (w1 := match unlink p (disk w) with Ok _ => _ | Err _ => _ end).
  assert (db w1 = db w) as Hdb by (unfold w1; by destruct (unlink p (disk w))).
  destruct (delete_steps n (db w)) as (d3 & Hrun & _ & Himg).
  unfold delete_annotations_of_image. rewrite Hdb, Hrun. simpl. split.
  - unfold delete_image in Hrun. injection Hrun as <-.
    by destruct (foreign_keys _ && _).
  - rewrite Himg. by intros r [_ Hr]%list_elem_of_filter.
Qed.

Ltac row_kept := intros ?; split; [simpl; lia|by left].

Lemma handle_images_fresh q w r :
  r ∈ images (db (handle q w).1) →
  images_seq (db w) ≤ images_seq (db (handle q w).1) ∧
  (r ∈ images (db w) ∨ images_seq (db w) < img_id r).
Proof.
  destruct q as [dirname now ts f|imageId labelName| |id|imageId labelId]; simpl.
  - unfold post_images. destruct f as [f|]; [|row_kept].
    destruct (fileFilter f); [|row_kept].
    case_bool_decide; [row_kept|]. simpl.
    unfold insert_image. case_decide; [row_kept|]. simpl.
    intros [Hin | ->%list_elem_of_singleton]%elem_of_app; simpl;
      (split; [lia|]); [by left|right; lia].
  - unfold on_db.
    destruct (post_annotations_images imageId labelName (db w)) as [Hi Hs].
    destruct (post_annotations imageId labelName (db w)) as [d' r']. simpl in *.
    rewrite Hi, Hs. row_kept.
  - row_kept.
  - destruct (delete_images_id_images id w) as [-> Hsub].
    intros Hr. split; [lia|]. left. by apply Hsub.
  - unfold on_db, delete_annotations.
    destruct (truthy_number imageId); [|row_kept].
    destruct (truthy_number labelId); [|row_kept].
    destruct (isNaN imageId || isNaN labelId); simpl; row_kept.
Qed.

Lemma handle_images_seq q w :
  images_seq (db w) ≤ images_seq (db (handle q w).1).
Proof.
  destruct q as [dirname now ts f|imageId labelName| |id|imageId labelId]; simpl.
  - unfold post_images. destruct f as [f|]; [|done].
    destruct (fileFilter f); [|done]. case_bool_decide; [done|]. simpl.
    unfold insert_image. case_decide; [done|]. simpl. lia.
  - unfold on_db.
    destruct (post_annotations_images imageId labelName (db w)) as [_ Hs].
    destruct (post_annotations imageId labelName (db w)) as [d' r']. simpl in *.
    by rewrite Hs.
  - done.
  - by destruct (delete_images_id_images id w) as [-> _].
  - unfold on_db, delete_annotations.
    destruct (truthy_number imageId); [|done].
    destruct (truthy_number labelId); [|done].
    by destruct (isNaN imageId || isNaN labelId).
Qed.

(** Image ids are never given out twice.  After any sequence of requests,
    an image row of the store either was there at the start, unchanged,
    or carries an id above the counter of the start, hence above the id of
    every image stored or deleted before. *)
Theorem image_ids_never_reused qs w r :
  reachable w →
  r ∈ images (db (serve qs w)) →
  r ∈ images (db w) ∨
  (images_seq (db w) < img_id r ∧ ∀ r', r' ∈ images (db w) → img_id r' < img_id r).
Proof.
  intros Hw Hr.
  assert (r ∈ images (db w) ∨ images_seq (db w) < img_id r) as [Hold|Hnew].
  { clear Hw. revert w Hr. induction qs as [|q qs IH]; intros w Hr; [by left|].
    simpl in Hr. apply IH in Hr as [Hr|Hr].
    - by apply handle_images_fresh in Hr as [_ ?].
    - right. pose proof (handle_images_seq q w). lia. }
  - by left.
  - right. split; [done|]. intros r' Hr'.
    apply (inv_image_seq _ (reachable_inv w Hw)) in Hr'. lia.
Qed.

(** ** Upload handler: outcomes *)

Lemma select_file_path_new i fname now path d :
  (∀ r, r ∈ images d → img_id r ≤ images_seq d) → images_seq d < i →
  select_file_path i
    (with_images
       (images d ++ [{| img_id := i; filename := fname; upload_time := now;
                        file_path := path |}]) i d) = Some path.
Proof.
  intros Hseq Hi. unfold select_file_path. simpl. rewrite filter_app.
  assert (filter (λ r, img_id r = i) (images d) = []) as ->.
  { apply elem_of_nil_inv. intros r [Heq Hr]%list_elem_of_filter.
    apply Hseq in Hr. lia. }
  by rewrite filter_cons_True.
Qed.

(** An upload that passes the filter and the size limit, under a
    generated name that no image row carries yet, answers 201 with the
    next id and that name.  Afterwards the images table ends with the new
    row, whose upload time is the reading of SQLite's clock and not the
    time in the name; looking the id up returns the path of the file, the
    file holds the uploaded content, every other path of the disk is as
    before, and exactly one row carries the id. *)
Theorem upload_accepted dirname now current_timestamp f w :
  store_inv (db w) →
  fileFilter f = Ok () →
  Z.of_nat (String.length (content f)) ≤ fileSize_limit →
  storage_filename now f ∉ filename <$> images (db w) →
  let fname := storage_filename now f in
  let path := storage_destination dirname +:+ "/" +:+ fname in
  let i := images_seq (db w) + 1 in
  ∃ w',
    post_images dirname now current_timestamp (Some f) w =
      (w', respond 201 (JCreated i fname)) ∧
    images (db w') =
      images (db w) ++
        [{| img_id := i; filename := fname; upload_time := current_timestamp;
            file_path := path |}] ∧
    select_file_path i (db w') = Some path ∧
    files (disk w') !! path = Some (content f) ∧
    (∀ p, p ≠ path → files (disk w') !! p = files (disk w) !! p) ∧
    length (filter (λ r, img_id r = i) (images (db w'))) = 1%nat.
Proof.
  intros Hinv Hfilter Hsize Hfresh fname path i.
  eexists. split_and!.
  - unfold post_images. rewrite Hfilter.
    rewrite bool_decide_eq_false_2 by lia. simpl.
    unfold insert_image. simpl. rewrite decide_False by done. reflexivity.
  - done.
  - simpl. apply select_file_path_new; [apply (inv_image_seq _ Hinv)|lia].
  - simpl. apply lookup_insert_eq.
  - intros p Hp. simpl. by apply lookup_insert_ne.
  - simpl. rewrite filter_app.
    assert (filter (λ r, img_id r = i) (images (db w)) = []) as ->.
    { apply elem_of_nil_inv. intros r [Heq Hr]%list_elem_of_filter.
      apply (inv_image_seq _ Hinv) in Hr. unfold i in Heq. lia. }
    by rewrite filter_cons_True.
Qed.

(** A request without file is answered 400 and leaves store, disk and
    console as they were.  A file the filter refuses never reaches the
    route: the error goes to Express's default handler, which answers 500
    with an HTML page instead of JSON and prints the stack of the error,
    whose first line is the entry added to the console; store and disk
    are as they were.  A file over the size limit creates no row either. *)
Theorem upload_refused dirname now current_timestamp w :
  (post_images dirname now current_timestamp None w).1 = w ∧
  status (post_images dirname now current_timestamp None w).2 = 400 ∧
  (∀ f, mimetype f ∉ ["image/jpeg"; "image/png"; "image/jpg"] →
        let w' := (post_images dirname now current_timestamp (Some f) w).1 in
        db w' = db w ∧ disk w' = disk w ∧
        console w' = console w ++ ["Error: Only JPG/PNG image files are allowed!"] ∧
        (post_images dirname now current_timestamp (Some f) w).2 =
          respond 500 (ErrorPage "Only JPG/PNG image files are allowed!")) ∧
  (∀ f, fileFilter f = Ok () →
        fileSize_limit < Z.of_nat (String.length (content f)) →
        db (post_images dirname now current_timestamp (Some f) w).1 = db w ∧
        status (post_images dirname now current_timestamp (Some f) w).2 ≠ 201).
Proof.
  split_and!; [done|done| |].
  - intros f Hmime. unfold post_images, fileFilter. by rewrite decide_False.
  - intros f Hfilter Hsize. unfold post_images. rewrite Hfilter.
    rewrite bool_decide_eq_true_2 by done. simpl.
    by split.
Qed.

(** When the generated name is already the file name of an image row, the
    upload is answered 400 and the store is unchanged, but the file has
    been written all the same: the path now holds the content of the
    refused upload. *)
Theorem upload_name_conflict_keeps_file dirname now current_timestamp f w :
  fileFilter f = Ok () →
  Z.of_nat (String.length (content f)) ≤ fileSize_limit →
  storage_filename now f ∈ filename <$> images (db w) →
  let path := storage_destination dirname +:+ "/" +:+ storage_filename now f in
  ∃ w',
    post_images dirname now current_timestamp (Some f) w =
      (w', respond 400
             (JError "SQLITE_CONSTRAINT: UNIQUE constraint failed: images.filename")) ∧
    db w' = db w ∧
    files (disk w') !! path = Some (content f) ∧
    console w' = console w.
Proof.
  intros Hfilter Hsize Hin path. eexists. split_and!.
  - unfold post_images. rewrite Hfilter.
    rewrite bool_decide_eq_false_2 by lia. simpl.
    unfold insert_image. simpl. rewrite decide_True by done. reflexivity.
  - done.
  - simpl. apply lookup_insert_eq.
  - done.
Qed.

(** ** [parseInt] reads back what number-to-string conversion printed *)

Lemma parse_digits_uint u : ∀ v s,
  stops_digits s →
  parse_digits (Some v) (NilEmpty.string_of_uint u +:+ s) = Some (uint_value v u).
Proof.
  induction u as [|u IH|u IH|u IH|u IH|u IH|u IH|u IH|u IH|u IH|u IH];
    intros v s Hs;
    [| simpl NilEmpty.string_of_uint; rewrite append_cons;
       simpl; rewrite (IH _ s Hs); reflexivity ..].
  simpl. rewrite append_nil_l. destruct s as [|c s]; [done|].
  simpl in *. by rewrite Hs.
Qed.

Lemma of_uint_acc_value u : ∀ acc,
  Z.pos (Pos.of_uint_acc u acc) = uint_value (Z.pos acc) u.
Proof.
  induction u as [|u IH|u IH|u IH|u IH|u IH|u IH|u IH|u IH|u IH|u IH];
    intros acc; simpl; [done|rewrite IH; f_equal; lia ..].
Qed.

Lemma of_uint_value u : Z.of_N (Pos.of_uint u) = uint_value 0 u.
Proof.
  induction u as [|u IH|u IH|u IH|u IH|u IH|u IH|u IH|u IH|u IH|u IH];
    simpl; [done|exact IH|apply of_uint_acc_value ..].
Qed.

Lemma uint_value_to_uint p : uint_value 0 (Pos.to_uint p) = Z.pos p.
Proof. by rewrite <- of_uint_value, DecimalPos.Unsigned.of_to. Qed.

(** Nothing is trimmed from a string that starts with a character of one
    byte that is not white space. *)
Lemma trim_start_keep c s :
  is_white_space c = false → (nat_of_ascii c <? 128)%nat = true →
  trim_start (String c s) = String c s.
Proof.
  intros Hc Hlow%Nat.ltb_lt. simpl. rewrite Hc.
  assert (∀ k, (128 ≤ k)%nat → (nat_of_ascii c =? k)%nat = false) as Hne.
  { intros k Hk. apply Nat.eqb_neq. lia. }
  destruct s as [|c2 [|c3 s]]; [done| |];
    unfold is_white_space2; rewrite Hne by lia; simpl; [done|].
  unfold is_white_space3. by rewrite !Hne by lia.
Qed.

Lemma parseInt_unsigned u s :
  u ≠ Decimal.Nil → stops_digits s →
  parseInt (NilEmpty.string_of_uint u +:+ s) = Num (uint_value 0 u).
Proof.
  intros Hu Hs. unfold parseInt.
  destruct u; [done|..]; simpl NilEmpty.string_of_uint; rewrite append_cons;
    rewrite trim_start_keep by reflexivity;
    simpl; rewrite (parse_digits_uint _ _ s Hs); simpl;
    f_equal; by destruct (uint_value _ _).
Qed.

Lemma parseInt_negative u s :
  u ≠ Decimal.Nil → stops_digits s →
  parseInt (String "-" (NilEmpty.string_of_uint u +:+ s)) = Num (- uint_value 0 u).
Proof.
  intros Hu Hs. unfold parseInt. rewrite trim_start_keep by reflexivity.
  destruct u; [done|..]; simpl NilEmpty.string_of_uint; rewrite append_cons;
    simpl; rewrite (parse_digits_uint _ _ s Hs); simpl;
    f_equal; by destruct (uint_value _ _).
Qed.

Lemma parseInt_string_of_Z z s :
  stops_digits s → parseInt (string_of_Z z +:+ s) = Num z.
Proof.
  intros Hs. unfold string_of_Z. destruct z as [|p|p]; simpl Z.to_int.
  - simpl NilZero.string_of_int.
    change "0" with (NilEmpty.string_of_uint (Decimal.D0 Decimal.Nil)).
    by rewrite parseInt_unsigned.
  - unfold NilZero.string_of_int, NilZero.string_of_uint.
    pose proof (DecimalPos.Unsigned.to_uint_nonnil p) as Hnil.
    assert (match Pos.to_uint p with
            | Decimal.Nil => "0"
            | _ => NilEmpty.string_of_uint (Pos.to_uint p)
            end = NilEmpty.string_of_uint (Pos.to_uint p)) as ->
      by (by destruct (Pos.to_uint p)).
    rewrite parseInt_unsigned by done. by rewrite uint_value_to_uint.
  - unfold NilZero.string_of_int, NilZero.string_of_uint.
    pose proof (DecimalPos.Unsigned.to_uint_nonnil p) as Hnil.
    assert (match Pos.to_uint p with
            | Decimal.Nil => "0"
            | _ => NilEmpty.string_of_uint (Pos.to_uint p)
            end = NilEmpty.string_of_uint (Pos.to_uint p)) as ->
      by (by destruct (Pos.to_uint p)).
    rewrite append_cons, parseInt_negative by done.
    by rewrite uint_value_to_uint.
Qed.

(** ** Generated file names *)

Lemma string_of_Z_inj a b : string_of_Z a = string_of_Z b → a = b.
Proof.
  unfold string_of_Z. intros Heq. apply DecimalZ.to_int_inj.
  assert (∀ z, NilZero.int_of_string (NilZero.string_of_int (Z.to_int z)) =
               Some (Z.to_int z)) as Hback.
  { intros z. apply NilZero.isi; destruct z as [|p|p]; try done; simpl;
      intros [= Hnil]; by apply DecimalPos.Unsigned.to_uint_nonnil in Hnil. }
  pose proof (Hback a) as Ha. rewrite Heq, Hback in Ha. congruence.
Qed.

Lemma dot_free_uint u : dot_free (NilEmpty.string_of_uint u) = true.
Proof. induction u; simpl; by rewrite ?IHu. Qed.

Lemma dot_free_string_of_Z z : dot_free (string_of_Z z) = true.
Proof.
  unfold string_of_Z, NilZero.string_of_int.
  assert (∀ u, dot_free (NilZero.string_of_uint u) = true) as Hu.
  { intros u. destruct u; try apply dot_free_uint. done. }
  destruct (Z.to_int z); simpl; by rewrite Hu.
Qed.

(** The text before the first dot is determined by the whole string. *)
Lemma before_dot_inj s1 : ∀ s2 e1 e2,
  dot_free s1 = true → dot_free s2 = true →
  s1 +:+ "." +:+ e1 = s2 +:+ "." +:+ e2 → s1 = s2.
Proof.
  induction s1 as [|c s1 IH]; intros [|c' s2] e1 e2 H1 H2 Heq.
  - done.
  - rewrite append_nil_l, !append_cons in Heq. injection Heq as <- _.
    by vm_compute in H2.
  - rewrite append_nil_l, !append_cons in Heq. injection Heq as -> _.
    by vm_compute in H1.
  - rewrite !append_cons in Heq. injection Heq as -> Heq.
    simpl in H1, H2. apply andb_true_iff in H1 as [_ H1].
    apply andb_true_iff in H2 as [_ H2]. f_equal. by eapply IH.
Qed.

(** Uploads handled in different milliseconds get different names,
    whatever the files are called. *)
Theorem uploads_distinct_times_distinct_names now1 now2 f1 f2 :
  now1 ≠ now2 → storage_filename now1 f1 ≠ storage_filename now2 f2.
Proof.
  intros Hne Heq. apply Hne, string_of_Z_inj. unfold storage_filename in Heq.
  rewrite !append_cons, !append_nil_l in Heq.
  injection Heq as Heq.
  eapply before_dot_inj; [apply dot_free_string_of_Z..|exact Heq].
Qed.

Lemma prefix_dot c s :
  String.prefix "." (String c s) = bool_decide (c = "."%char).
Proof.
  rewrite prefix_cons, prefix_empty.
  case_decide as Hc; [subst c; by rewrite bool_decide_eq_true_2|].
  by rewrite bool_decide_eq_false_2 by congruence.
Qed.

Lemma split_from_dot_free s : ∀ piece,
  dot_free s = true → split_from "." 0 piece s = [piece +:+ s].
Proof.
  induction s as [|c s IH]; intros piece Hs.
  - by rewrite append_nil_r.
  - simpl in Hs. apply andb_true_iff in Hs as [Hc Hs].
    rewrite split_from_cons, prefix_dot.
    apply negb_true_iff in Hc. rewrite Hc, IH by done.
    by rewrite append_assoc.
Qed.

Lemma last_cons_Some {A} (x y : A) (l : list A) :
  last l = Some y → last (x :: l) = Some y.
Proof. by destruct l. Qed.

Lemma split_from_dot_last base : ∀ piece ext,
  dot_free ext = true →
  last (split_from "." 0 piece (base +:+ "." +:+ ext)) = Some ext.
Proof.
  induction base as [|c base IH]; intros piece ext Hext.
  - rewrite append_nil_l, append_cons, append_nil_l, split_from_cons, prefix_dot.
    rewrite bool_decide_eq_true_2 by done. simpl String.length. simpl Nat.sub.
    rewrite split_from_dot_free by done. by rewrite append_nil_l.
  - rewrite append_cons, split_from_cons, prefix_dot.
    case_bool_decide; [|by apply IH].
    simpl String.length. simpl Nat.sub. apply last_cons_Some. by apply IH.
Qed.

(** The extension of the generated name is what follows the last dot of
    the original name; an original name without dot is taken whole. *)
Theorem storage_filename_extension now f :
  (dot_free (originalname f) = true →
   storage_filename now f =
     "image-" +:+ string_of_Z now +:+ "." +:+ originalname f) ∧
  (∀ base ext,
     originalname f = base +:+ "." +:+ ext → dot_free ext = true →
     storage_filename now f = "image-" +:+ string_of_Z now +:+ "." +:+ ext).
Proof.
  unfold storage_filename, split. split.
  - intros Hfree. rewrite split_from_dot_free by done. by rewrite append_nil_l.
  - intros base ext -> Hext. by rewrite split_from_dot_last.
Qed.

(** ** Deleting images: how calls compose *)

Lemma delete_stored_image id n w :
  parseInt id = Num n → n ∈ img_id <$> images (db w) →
  ∃ w' p,
    delete_images_id id w =
      (w', respond 200
             (JSuccess "Image deleted successfully (including file and annotations)!")) ∧
    select_file_path n (db w) = Some p ∧
    annotations (db w') = filter (λ a, image_id a ≠ n) (annotations (db w)) ∧
    images (db w') = filter (λ r, img_id r ≠ n) (images (db w)) ∧
    disk w' = match unlink p (disk w) with Ok f => f | Err _ => disk w end.
Proof.
  intros Hid Hn. apply select_file_path_Some in Hn as [p Hp].
  destruct (delete_steps n (db w)) as (d3 & Hrun & Hann & Himg).
  set (w1 := match unlink p (disk w) with
             | Ok f => {| db := db w; disk := f; console := console w |}
             | Err msg =>
                 {| db := db w; disk := disk w;
                    console := console w ++ ["File deletion failed: " +:+ msg] |}
             end).
  assert (db w1 = db w) as Hdb by (unfold w1; by destruct (unlink p (disk w))).
  exists (with_db d3 w1), p. split_and!; try done.
  - unfold delete_images_id. rewrite Hid, Hp. fold w1.
    unfold delete_annotations_of_image. by rewrite Hdb, Hrun.
  - unfold w1. by destruct (unlink p (disk w)).
Qed.

(** The route ignores any text after the digits of the id that does not
    start with a digit: [DELETE /api/images/12abc] is
    [DELETE /api/images/12].  For an id that a double holds exactly, up to
    2^53 in absolute value, the number the route works with is the id that
    was printed. *)
Theorem delete_reads_printed_id z s w :
  stops_digits s →
  delete_images_id (string_of_Z z +:+ s) w = delete_images_id (string_of_Z z) w ∧
  (Z.abs z ≤ 2 ^ 53 → parseInt (string_of_Z z +:+ s) = Num z).
Proof.
  intros Hs.
  pose proof (parseInt_string_of_Z z s Hs) as Hrest.
  pose proof (parseInt_string_of_Z z "" I) as Hplain.
  rewrite append_nil_r in Hplain.
  split; [|done]. unfold delete_images_id. by rewrite Hrest, Hplain.
Qed.

(** Deleting the same image a second time is answered 404 and changes
    nothing: the first call has removed the row the second one looks up. *)
Theorem delete_image_twice id n w :
  parseInt id = Num n → n ∈ img_id <$> images (db w) →
  let w1 := (delete_images_id id w).1 in
  status (delete_images_id id w).2 = 200 ∧
  delete_images_id id w1 =
    (w1, respond 404 (JError "Image not found in the database!")).
Proof.
  intros Hid Hn w1.
  destruct (delete_stored_image id n w Hid Hn) as (w' & p & Hrun & _ & _ & Himg & _).
  unfold w1. rewrite Hrun. simpl. split; [done|].
  unfold delete_images_id. rewrite Hid.
  assert (select_file_path n (db w') = None) as ->; [|done].
  apply select_file_path_None. rewrite Himg.
  intros (r & -> & [Hne _]%list_elem_of_filter)%list_elem_of_fmap. done.
Qed.

(** Deleting an image of the listing through its printed id: the call is
    answered 200, the listing no longer has an entry for the image, the
    rows of the other images are kept, the annotations left are exactly
    those of the other images, and when the file exists and may be removed
    it is gone from the disk while every other file stays. *)
Theorem delete_listed_image w r :
  r ∈ images (db w) →
  let w' := (delete_images_id (string_of_Z (img_id r)) w).1 in
  status (delete_images_id (string_of_Z (img_id r)) w).2 = 200 ∧
  (img_id r ∉ row_id <$> images_with_labels (db w')) ∧
  (∀ r', r' ∈ images (db w) → img_id r' ≠ img_id r → r' ∈ images (db w')) ∧
  annotations (db w') = filter (λ a, image_id a ≠ img_id r) (annotations (db w)) ∧
  ∃ p, select_file_path (img_id r) (db w) = Some p ∧
       (is_Some (files (disk w) !! p) → p ∉ locked (disk w) →
        files (disk w') = delete p (files (disk w))).
Proof.
  intros Hr w'.
  assert (parseInt (string_of_Z (img_id r)) = Num (img_id r)) as Hid.
  { pose proof (parseInt_string_of_Z (img_id r) "" I) as H.
    by rewrite append_nil_r in H. }
  destruct (delete_stored_image _ _ w Hid (list_elem_of_fmap_2 img_id _ _ Hr))
    as (w1 & p & Hrun & Hp & Hann & Himg & Hdisk).
  unfold w'. rewrite Hrun. simpl. split_and!; [done| | |done|].
  - rewrite listing_one_row_per_image, Himg.
    intros (r' & Heq & [Hne _]%list_elem_of_filter)%list_elem_of_fmap. done.
  - intros r' Hr' Hne. rewrite Himg. by apply list_elem_of_filter.
  - exists p. split; [done|]. intros [c Hc] Hfree. rewrite Hdisk.
    unfold unlink. rewrite Hc. by rewrite decide_False.
Qed.

(** ** Attaching and removing labels: outcomes and round trip *)

Lemma label_ids_nonzero d l : ids_positive d → l ∈ labels d → lbl_id l ≠ 0.
Proof. intros Hpos Hl. apply (pos_label_ids d Hpos) in Hl. lia. Qed.

(** On a store that satisfies the schema, a call with a non-zero id and a
    name of 1 to 50 UTF-16 code units always answers 200: with the message of
    the existing-label branch when the name is stored, with the message of
    the new-label branch otherwise.  Afterwards the name is stored under
    one id, exactly one annotation row links the image id to that label,
    and the store still satisfies the schema. *)
Theorem attach_valid_succeeds iid nm d :
  store_inv d → iid ≠ 0 → nm ≠ "" → (js_length nm ≤ 50)%nat →
  ∃ d' lid,
    post_annotations (Some (Num iid)) (Some nm) d =
      (d', if decide (nm ∈ name <$> labels d) then linked_response
           else created_response) ∧
    {| lbl_id := lid; name := nm |} ∈ labels d' ∧
    length (filter (is_pair iid lid) (annotations d')) = 1%nat ∧
    store_inv d'.
Proof.
  intros Hinv Hi Hne Hlen.
  pose proof (post_annotations_inv (Some (Num iid)) (Some nm) d Hinv) as Hinv'.
  rewrite post_annotations_valid in Hinv' |- * by done.
  case_decide as Hin.
  - apply list_elem_of_fmap in Hin as (l & -> & Hl).
    assert ({| lbl_id := lbl_id l; name := name l |} ∈ labels d) as Hl'
      by by destruct l.
    rewrite (select_label_id_unique _ d (lbl_id l) (inv_label_names d Hinv) Hl') in *.
    destruct (has_pair iid (lbl_id l) d) eqn:Hp.
    + rewrite insert_annotation_present in * by done.
      eexists _, (lbl_id l). split_and!; [done|done| |done].
      simpl. apply pair_rows_present; [apply Hinv|by apply has_pair_spec].
    + rewrite (insert_annotation_absent true) in * by (done || apply Hinv).
      eexists _, (lbl_id l). split_and!; [done|done| |done].
      apply pair_rows_present; [apply Hinv'|]. simpl.
      rewrite fmap_app, elem_of_app. right. by apply list_elem_of_singleton.
  - pose proof Hin as Hsel. apply select_label_id_None in Hsel. rewrite Hsel in *.
    unfold insert_label in *. rewrite decide_False in * by done.
    set (d0 := with_labels (labels d ++ [{| lbl_id := labels_seq d + 1; name := nm |}])
                 (labels_seq d + 1) d) in *.
    assert (foreign_keys d0 = false) as Hfk by apply Hinv.
    assert (has_pair iid (labels_seq d + 1) d0 = false) as Hp
      by exact (next_label_unused d iid Hinv).
    rewrite (insert_annotation_absent false _ _ _ Hfk Hp) in *.
    eexists _, (labels_seq d + 1). split_and!; [done| | |done].
    + simpl. rewrite elem_of_app. right. by apply list_elem_of_singleton.
    + apply pair_rows_present; [apply Hinv'|]. simpl.
      rewrite fmap_app, elem_of_app. right. by apply list_elem_of_singleton.
Qed.

(** Attaching a label to an image that does not carry it and then removing
    it through the id of the label gives back the annotations as they
    were; the label itself, also when the call created it, stays. *)
Theorem attach_then_detach w iid nm :
  reachable w → iid ≠ 0 → nm ≠ "" → (js_length nm ≤ 50)%nat →
  let d := db w in
  let d1 := (post_annotations (Some (Num iid)) (Some nm) d).1 in
  ∃ lid,
    {| lbl_id := lid; name := nm |} ∈ labels d1 ∧
    ((iid, lid) ∉ pair_of <$> annotations d →
     let d2 := (delete_annotations (Some (Num iid)) (Some (Num lid)) d1).1 in
     status (delete_annotations (Some (Num iid)) (Some (Num lid)) d1).2 = 200 ∧
     annotations d2 = annotations d ∧
     labels d2 = labels d1 ∧ images d2 = images d).
Proof.
  intros Hw Hi Hne Hlen d d1.
  pose proof (reachable_inv w Hw) as Hinv.
  pose proof (reachable_ids_positive w Hw) as Hpos.
  assert (∀ lid, lid ≠ 0 → (iid, lid) ∉ pair_of <$> annotations d →
            ∀ d1', images d1' = images d →
            annotations d1' =
              annotations d ++
                [{| ann_id := annotations_seq d + 1; image_id := iid; label_id := lid |}] →
            let d2 := (delete_annotations (Some (Num iid)) (Some (Num lid)) d1').1 in
            status (delete_annotations (Some (Num iid)) (Some (Num lid)) d1').2 = 200 ∧
            annotations d2 = annotations d ∧
            labels d2 = labels d1' ∧ images d2 = images d) as Hundo.
  { intros lid Hlid Hnot d1' Himg Hann. unfold delete_annotations, truthy_number.
    rewrite !decide_False by done. simpl. split_and!; [done| |done|done].
    rewrite Hann, filter_app, filter_cons_False, filter_nil, app_nil_r
      by (simpl; tauto).
    apply filter_all. intros a Ha [<- <-]. apply Hnot.
    by apply (list_elem_of_fmap_2 pair_of) in Ha. }
  unfold d1. rewrite post_annotations_valid by done.
  destruct (select_label_id nm d) as [lid|] eqn:Hsel.
  - apply select_label_id_elem in Hsel. exists lid.
    destruct (has_pair iid lid d) eqn:Hp.
    + rewrite insert_annotation_present by done. cbn [fst]. split; [done|].
      intros Hnot. by apply has_pair_spec in Hp.
    + rewrite (insert_annotation_absent true) by (done || apply Hinv). cbn [fst].
      split; [done|]. intros Hnot.
      match goal with
      | |- context [delete_annotations _ _ ?x] =>
          refine (Hundo lid _ Hnot x eq_refl eq_refl)
      end.
      exact (label_ids_nonzero d _ Hpos Hsel).
  - apply select_label_id_None in Hsel.
    unfold insert_label. rewrite decide_False by done.
    rewrite (insert_annotation_absent false);
      [|apply Hinv|exact (next_label_unused d iid Hinv)].
    exists (labels_seq d + 1). cbn [fst]. split.
    + simpl. rewrite elem_of_app. right. by apply list_elem_of_singleton.
    + intros Hnot.
      match goal with
      | |- context [delete_annotations _ _ ?x] =>
          refine (Hundo (labels_seq d + 1) _ Hnot x eq_refl eq_refl)
      end.
      pose proof (pos_labels_seq d Hpos). lia.
Qed.

(** [DELETE /api/annotations] refuses a call in which an id is absent, NaN
    or zero with status 400 and leaves the store unchanged; every other
    call is answered 200. *)
Theorem detach_validation imageId labelId d :
  (falsy_id imageId ∨ falsy_id labelId →
   delete_annotations imageId labelId d =
     (d, respond 400 (JError "Valid Image ID and Label ID (numbers) are required!"))) ∧
  (¬ falsy_id imageId → ¬ falsy_id labelId →
   status (delete_annotations imageId labelId d).2 = 200).
Proof.
  unfold delete_annotations. split.
  - intros Hbad.
    destruct (truthy_number imageId) as [iid|] eqn:Ei; [|done].
    destruct (truthy_number labelId) as [lid|] eqn:El; [|done].
    destruct Hbad as [Hbad|Hbad]; apply truthy_number_None in Hbad; congruence.
  - intros Hi Hl.
    destruct (truthy_number imageId) as [iid|] eqn:Ei;
      [|by apply truthy_number_None in Ei].
    destruct (truthy_number labelId) as [lid|] eqn:El;
      [|by apply truthy_number_None in El].
    apply truthy_number_Some in Ei as [-> _].
    by apply truthy_number_Some in El as [-> _].
Qed.

(** ** The listing and the tags the page renders from it *)

(** The join reads the annotations of the image, each once, in the order
    of their label ids. *)
Lemma annotations_of_spec i d a :
  a ∈ annotations_of i d ↔ image_id a = i ∧ a ∈ annotations d.
Proof.
  unfold annotations_of. rewrite merge_sort_Permutation.
  by rewrite list_elem_of_filter.
Qed.

#[local] Instance label_id_le_trans : Transitive label_id_le.
Proof. unfold label_id_le. intros a b c. lia. Qed.

#[local] Instance label_id_le_total : Total label_id_le.
Proof. unfold label_id_le. intros a b. lia. Qed.




Lemma joined_labels_spec r d l :
  l ∈ joined_labels r d ↔
  l ∈ labels d ∧ (img_id r, lbl_id l) ∈ pair_of <$> annotations d.
Proof.
  unfold joined_labels. rewrite list_elem_of_bind. split.
  - intros (a & [Hid Hl]%list_elem_of_filter & [Himg Ha]%annotations_of_spec).
    split; [done|]. apply list_elem_of_fmap. exists a. split; [|done].
    unfold pair_of. congruence.
  - intros [Hl (a & [= Himg Hid] & Ha)%list_elem_of_fmap].
    exists a. split; [by apply list_elem_of_filter|by apply annotations_of_spec].
Qed.

Lemma imap_zip_fmap {A B C D} (f : A → B) (g : A → C) (c : D) (ls : list A) :
  imap (λ index x, (x, c, (g <$> ls) !! index)) (f <$> ls) =
  (λ l, (f l, c, Some (g l))) <$> ls.
Proof.
  apply list_eq. intros i.
  rewrite list_lookup_imap, !list_lookup_fmap.
  by destruct (ls !! i).
Qed.


(** A label attached to a stored image shows up in the listing: after a
    valid call for the image, whose name like the stored names holds no
    delimiter, the tags of the image include the name, paired with the
    printed id under which the name is stored. *)
Theorem attached_label_is_listed d r nm :
  store_inv d →
  (∀ l, l ∈ labels d → has_delimiter (name l) = false) →
  r ∈ images d → img_id r ≠ 0 →
  nm ≠ "" → (js_length nm ≤ 50)%nat → has_delimiter nm = false →
  let d' := (post_annotations (Some (Num (img_id r))) (Some nm) d).1 in
  ∃ row lid,
    row ∈ images_with_labels d' ∧ row_id row = img_id r ∧
    {| lbl_id := lid; name := nm |} ∈ labels d' ∧
    (nm, img_id r, Some (string_of_Z lid)) ∈ labelTags row.
Proof.
  intros Hinv Hfree Hr Hid Hne Hlen Hnm d'.
  pose proof (post_annotations_inv (Some (Num (img_id r))) (Some nm) d Hinv) as Hinv'.
  pose proof (post_annotations_images (Some (Num (img_id r))) (Some nm) d) as [Himg _].
  fold d' in Hinv', Himg.
  assert (∃ lid, {| lbl_id := lid; name := nm |} ∈ labels d' ∧
                 (img_id r, lid) ∈ pair_of <$> annotations d' ∧
                 ∀ l, l ∈ labels d' → l ∈ labels d ∨ name l = nm) as (lid & Hl & Hp & Hnew).
  { unfold d'. rewrite post_annotations_valid by done.
    destruct (select_label_id nm d) as [lid|] eqn:Hsel.
    - apply select_label_id_elem in Hsel. exists lid.
      destruct (has_pair (img_id r) lid d) eqn:Hpair.
      + rewrite insert_annotation_present by done. cbn [fst].
        split_and!; [done|by apply has_pair_spec|auto].
      + rewrite (insert_annotation_absent true) by (done || apply Hinv). cbn [fst].
        split_and!; [done| |auto]. simpl. rewrite fmap_app, elem_of_app. right.
        by apply list_elem_of_singleton.
    - apply select_label_id_None in Hsel.
      unfold insert_label. rewrite decide_False by done.
      rewrite (insert_annotation_absent false);
        [|apply Hinv|exact (next_label_unused d (img_id r) Hinv)].
      exists (labels_seq d + 1). cbn [fst]. simpl. split_and!.
      + rewrite elem_of_app. right. by apply list_elem_of_singleton.
      + rewrite fmap_app, elem_of_app. right. by apply list_elem_of_singleton.
      + intros l [?| ->%list_elem_of_singleton]%elem_of_app; auto. }
  assert (∀ l, l ∈ labels d' → has_delimiter (name l) = false) as Hfree'.
  { intros l [Hold| ->]%Hnew; auto. }
  assert (r ∈ images d') as Hr' by by rewrite Himg.
  exists {| row_id := img_id r; row_filename := filename r; row_file_path := file_path r;
            row_labels := group_concat ", " (name <$> joined_labels r d');
            row_labelIds :=
              group_concat ", " (string_of_Z ∘ lbl_id <$> joined_labels r d') |}, lid.
  split_and!; [|done|done|].
  - unfold images_with_labels. apply list_elem_of_fmap. exists r. by split.
  - unfold labelTags. simpl.
    assert (Forall (λ l, l ∈ labels d') (joined_labels r d')) as Hls.
    { apply Forall_forall. intros l. apply joined_labels_stored. }
    rewrite !split_field_group_concat.
    + rewrite (imap_zip_fmap name (string_of_Z ∘ lbl_id)).
      apply list_elem_of_fmap. exists {| lbl_id := lid; name := nm |}.
      split; [done|]. by apply joined_labels_spec.
    + apply Forall_fmap. eapply Forall_impl; [exact Hls|].
      intros l Hin. simpl.
      split; [apply (inv_label_name_ok d' Hinv' l Hin)|by apply Hfree'].
    + apply Forall_fmap, Forall_forall. intros l _. simpl.
      split; [apply string_of_Z_nonempty|apply string_of_Z_no_delimiter].
Qed.

(** ** The further properties on the sample worlds *)

Ltac by_computation := apply (bool_decide_unpack _); vm_compute; exact I.

Lemma gallery_images : images (db gallery) = [gallery_cat_row; gallery_dog_row].
Proof. vm_compute. reflexivity. Qed.

Lemma gallery_delimiter_free l :
  l ∈ labels (db gallery) → has_delimiter (name l) = false.
Proof.
  assert (Forall (λ l, has_delimiter (name l) = false) (labels (db gallery))) as H
    by by_computation.
  intros Hl. by eapply Forall_forall in H.
Qed.

Lemma reachable_schema_constraints_witness :
  NoDup (name <$> labels (db gallery)) ∧
  NoDup (pair_of <$> annotations (db gallery)).
Proof.
  destruct (reachable_schema_constraints gallery gallery_reachable)
    as (_ & _ & _ & Hnames & Hpairs & _).
  split; [exact Hnames|exact Hpairs].
Defined.

Lemma image_ids_never_reused_witness :
  gallery_new_dog_row ∈ images (db gallery) ∨
  (images_seq (db gallery) < 3 ∧
   ∀ r', r' ∈ images (db gallery) → img_id r' < 3).
Proof.
  apply (image_ids_never_reused
           [DeleteImagesId "2";
            PostImages "/srv/backend" 1700000000900 1700000002 (Some dog_png)]
           gallery gallery_new_dog_row gallery_reachable).
  by_computation.
Defined.

Lemma upload_accepted_witness :
  ∃ w',
    post_images "/srv/backend" 1700000000900 1700000002 (Some bird_v2_png) gallery =
      (w', respond 201 (JCreated 3 "image-1700000000900.png")) ∧
    images (db w') = images (db gallery) ++ [gallery_new_dog_row] ∧
    select_file_path 3 (db w') = Some "/srv/backend/uploads/image-1700000000900.png".
Proof.
  destruct (upload_accepted "/srv/backend" 1700000000900 1700000002 bird_v2_png gallery)
    as (w' & Hrun & Hrows & Hpath & _).
  - apply gallery_inv.
  - reflexivity.
  - vm_compute. discriminate.
  - by_computation.
  - exists w'. split_and!; [exact Hrun|exact Hrows|exact Hpath].
Defined.

Lemma upload_refused_witness :
  (post_images "/srv/backend" 1 1
     (Some {| originalname := "a.gif"; mimetype := "image/gif"; content := "gif" |})
     gallery).2 =
    respond 500 (ErrorPage "Only JPG/PNG image files are allowed!").
Proof.
  destruct (upload_refused "/srv/backend" 1 1 gallery) as (_ & _ & Hfilter & _).
  apply Hfilter. by_computation.
Defined.

Lemma upload_name_conflict_keeps_file_witness :
  ∃ w',
    post_images "/srv/backend" 1700000000000 1700000003 (Some cat_jpg) gallery =
      (w', respond 400
             (JError "SQLITE_CONSTRAINT: UNIQUE constraint failed: images.filename")) ∧
    db w' = db gallery.
Proof.
  destruct (upload_name_conflict_keeps_file "/srv/backend" 1700000000000 1700000003
              cat_jpg gallery)
    as (w' & Hrun & Hdb & _).
  - reflexivity.
  - vm_compute. discriminate.
  - by_computation.
  - exists w'. split; [exact Hrun|exact Hdb].
Defined.

Lemma uploads_distinct_times_distinct_names_witness :
  storage_filename 1700000000000 cat_jpg ≠ storage_filename 1700000000001 cat_jpg.
Proof. apply uploads_distinct_times_distinct_names. lia. Defined.

Lemma storage_filename_extension_witness :
  storage_filename 17 bird_v2_png = "image-17.png".
Proof.
  destruct (storage_filename_extension 17 bird_v2_png) as [_ Hext].
  apply (Hext "bird.v2" "png"); reflexivity.
Defined.

Lemma delete_reads_printed_id_witness :
  delete_images_id "2abc" gallery = delete_images_id "2" gallery.
Proof.
  destruct (delete_reads_printed_id 2 "abc" gallery) as [Hsame _].
  - reflexivity.
  - exact Hsame.
Defined.

Lemma delete_image_twice_witness :
  delete_images_id "1" (delete_images_id "1" gallery).1 =
    ((delete_images_id "1" gallery).1,
     respond 404 (JError "Image not found in the database!")).
Proof.
  destruct (delete_image_twice "1" 1 gallery) as [_ Hsecond].
  - reflexivity.
  - by_computation.
  - exact Hsecond.
Defined.

Lemma delete_listed_image_witness :
  status (delete_images_id (string_of_Z 1) gallery).2 = 200 ∧
  1 ∉ row_id <$> images_with_labels (db (delete_images_id (string_of_Z 1) gallery).1).
Proof.
  destruct (delete_listed_image gallery gallery_cat_row) as (Hok & Hgone & _).
  - rewrite gallery_images. left.
  - split; [exact Hok|exact Hgone].
Defined.

Lemma attach_valid_succeeds_witness :
  ∃ d' lid,
    post_annotations (Some (Num 2)) (Some "bird") (db gallery) = (d', created_response) ∧
    {| lbl_id := lid; name := "bird" |} ∈ labels d'.
Proof.
  destruct (attach_valid_succeeds 2 "bird" (db gallery))
    as (d' & lid & Hrun & Hl & _).
  - apply gallery_inv.
  - lia.
  - discriminate.
  - simpl. lia.
  - exists d', lid. split; [|exact Hl].
    assert ("bird" ∉ name <$> labels (db gallery)) as Hnew by by_computation.
    rewrite Hrun. by rewrite decide_False.
Defined.

Lemma attach_then_detach_witness :
  let d1 := (post_annotations (Some (Num 2)) (Some "car") (db gallery)).1 in
  ∃ lid,
    {| lbl_id := lid; name := "car" |} ∈ labels d1 ∧
    annotations (delete_annotations (Some (Num 2)) (Some (Num lid)) d1).1 =
      annotations (db gallery).
Proof.
  destruct (attach_then_detach gallery 2 "car") as (lid & Hl & Hundo).
  - apply gallery_reachable.
  - lia.
  - discriminate.
  - simpl. lia.
  - exists lid. split; [exact Hl|]. apply Hundo.
    intros (a & [= Hi _] & Ha)%list_elem_of_fmap.
    assert (Forall (λ a, image_id a ≠ 2) (annotations (db gallery))) as Hall
      by by_computation.
    eapply Forall_forall in Hall; [|exact Ha]. congruence.
Defined.

Lemma detach_validation_witness :
  delete_annotations (Some (Num 0)) (Some (Num 1)) (db gallery) =
    (db gallery,
     respond 400 (JError "Valid Image ID and Label ID (numbers) are required!")).
Proof.
  destruct (detach_validation (Some (Num 0)) (Some (Num 1)) (db gallery)) as [Hbad _].
  apply Hbad. left. unfold falsy_id. auto.
Defined.


Lemma attached_label_is_listed_witness :
  ∃ row lid,
    row ∈ images_with_labels
            (post_annotations (Some (Num 2)) (Some "bird") (db gallery)).1 ∧
    ("bird", 2, Some (string_of_Z lid)) ∈ labelTags row.
Proof.
  destruct (attached_label_is_listed (db gallery) gallery_dog_row "bird")
    as (row & lid & Hrow & _ & _ & Htag).
  - apply gallery_inv.
  - apply gallery_delimiter_free.
  - rewrite gallery_images. right. left.
  - discriminate.
  - discriminate.
  - simpl. lia.
  - reflexivity.
  - exists row, lid. split; [exact Hrow|exact Htag].
Defined.

Lemma listing_unlabelled_witness :
  {| row_id := 2; row_filename := "image-1700000000500.png";
     row_file_path := "/srv/backend/uploads/image-1700000000500.png";
     row_labels := None; row_labelIds := None |} ∈ images_with_labels (db gallery).
Proof.
  apply (listing_unlabelled (db gallery) gallery_dog_row).
  - rewrite gallery_images. right. left.
  - intros a Ha. simpl.
    assert (Forall (λ a, image_id a ≠ 2) (annotations (db gallery))) as Hall
      by by_computation.
    by eapply Forall_forall in Hall.
Defined.
